(** * Mood DJ: the mood-playlist store, the chat tools and the playlist workflow

    A shallow embedding of [src/tools.ts] and [src/workflows.ts].

    The tools work on JavaScript objects that are shared by reference: the
    module-level array [globalPlaylists], the [playlists] property of an
    agent, and the [Playlist] objects held by those arrays.  The embedding
    therefore keeps an explicit object store (locations, arrays of
    locations, agent properties) and threads it, together with the log of
    HTTP requests and the names of the workflow steps that ran, through a
    small state-and-exception monad.

    What is represented and what is not:
    - a [songs] array is only ever reached through its playlist, so it is
      kept inside the playlist object; song entries are never mutated;
    - [toLowerCase] is a parameter: the tools only compare its results;
    - a string is held as the bytes of its UTF-16 code units, each code
      unit written as UTF-8 writes the code point of the same number, so
      that appending the bytes is appending the strings; the strings in
      which a surrogate code unit is not half of a pair are those on which
      [encodeURIComponent] throws;
    - the streaming service is a parameter too, a [Catalog] that answers
      each request from the log of all requests so far: an awaited [fetch]
      or [json()] either rejects with some error or yields a body, of which
      the catalog gives what the code reads ([null] included);
    - an [await] is a sequencing point: each tool call runs to its end
      before the next one starts, and calls that interleave at an [await]
      are outside the model;
    - [console.log], the input validation done by the tool framework before
      [execute] is called, the checkpointing and retries of [step.do], and
      engine limits such as the argument count of a spread call are not
      represented. *)

From Stdlib Require Import Ascii.
From stdpp Require Import base strings gmap list pretty.

(** ** Strings of the template literals *)

Definition dquote : string := String "034"%char EmptyString.
Definition newline : string := String "010"%char EmptyString.

(** ["..."] around a value, as the templates write [\"${x}\"]. *)
Definition quoted (s : string) : string := dquote +:+ s +:+ dquote.

(** [Array.prototype.join]. *)
Definition join (sep : string) (parts : list string) : string :=
  String.concat sep parts.

(** The first two of the three bytes of a surrogate code unit: the byte
    237 and then a byte from 160 to 175 for a high surrogate (U+D800 to
    U+DBFF), from 176 to 191 for a low one (U+DC00 to U+DFFF).  No other
    code unit starts with these bytes. *)
Definition high_surrogate (c d : ascii) : bool :=
  Nat.eqb (nat_of_ascii c) 237
  && Nat.leb 160 (nat_of_ascii d) && Nat.leb (nat_of_ascii d) 175.

Definition low_surrogate (c d : ascii) : bool :=
  Nat.eqb (nat_of_ascii c) 237
  && Nat.leb 176 (nat_of_ascii d) && Nat.leb (nat_of_ascii d) 191.

(** [encodeURIComponent(s)] throws a [URIError] exactly when [s] holds a
    surrogate code unit that is not half of a pair: a high surrogate that
    is not followed by a low one, or a low surrogate that does not follow a
    high one. *)
Fixpoint lone_surrogate (s : string) : bool :=
  match s with
  | String c (String d after as rest) =>
      if high_surrogate c d then
        match after with
        | String _ (String c' (String d' rest')) =>
            if low_surrogate c' d' then lone_surrogate rest' else true
        | _ => true
        end
      else if low_surrogate c d then true
      else lone_surrogate rest
  | _ => false
  end.

(** ** Data model (tools.ts:10-18) *)

Record SongEntry := { title : string; artist : option string }.

Record Playlist := { mood : string; songs : list SongEntry }.

#[global] Instance SongEntry_eq_dec : EqDecision SongEntry.
Proof. solve_decision. Defined.

#[global] Instance Playlist_eq_dec : EqDecision Playlist.
Proof. solve_decision. Defined.

(** JavaScript truthiness of a [string | undefined]: [undefined] and the
    empty string are falsy. *)
Definition truthy (s : option string) : bool :=
  match s with
  | Some (String _ _) => true
  | _ => false
  end.

(** Truthiness of a string ([!s] is [negb (truthy_string s)]). *)
Definition truthy_string (s : string) : bool := truthy (Some s).

(** The value interpolated for an artist known to be truthy. *)
Definition artist_text (s : SongEntry) : string := default "" (artist s).

(** [s.artist ? ` by ${s.artist}` : ""] *)
Definition by_artist (s : SongEntry) : string :=
  if truthy (artist s) then " by " +:+ artist_text s else "".

(** ** The object store *)

Definition loc := positive.
Definition AgentId := nat.

(** ** The external catalog (the four [fetch] calls of tools.ts:161-208) *)

(** A search is recorded by its query; the URL carries
    [encodeURIComponent(query)], which can be built only when the query
    holds no lone surrogate. *)
Inductive Endpoint :=
| GetMe                                                   (* GET /v1/me *)
| PostPlaylist (userId name description : string) (public : bool)
                                                          (* POST /v1/users/{id}/playlists *)
| GetSearch (query : string)                              (* GET /v1/search?q=..&type=track&limit=1 *)
| PostTracks (playlistId : string) (uris : list string).  (* POST /v1/playlists/{id}/tracks *)

(** Every request carries the header [Authorization: Bearer ${accessToken}]. *)
Record Request := { bearer : string; endpoint : Endpoint }.

#[global] Instance Endpoint_eq_dec : EqDecision Endpoint.
Proof. solve_decision. Defined.

#[global] Instance Request_eq_dec : EqDecision Request.
Proof. solve_decision. Defined.

(** What the code reads off a created playlist that is not [null]:
    [createdPlaylist.id] as interpolated into the tracks URL, and
    [createdPlaylist.external_urls.spotify] as interpolated into the
    message; [None] when [external_urls] is [null] or missing, in which case
    reading [.spotify] throws. *)
Record CreatedPlaylist := { cp_id : string; cp_spotify : option string }.

(** What a tool call can throw. *)
Inductive Error :=
| TypeError    (* a property read on [undefined] or [null], [in] on a non-object *)
| URIError     (* [encodeURIComponent] on a lone surrogate *)
| SyntaxError  (* [json()] on a body that is not JSON *)
| FetchError.  (* any other reason an awaited call rejects with *)

Inductive Result (A : Type) :=
| Ok (a : A)
| Throw (e : Error).
Arguments Ok {A} a.
Arguments Throw {A} e.

(** The catalog answers a request given the whole log of requests so far
    (the last entry is the request being answered), so its answers may
    depend on history.  [Throw e] is an awaited [fetch] or [json()] that
    rejects with [e]; [Ok] carries the parsed body as far as the code reads
    it:
    - [userData]: [None] for [null], on which reading [.id] throws, and
      otherwise the text that [${userData.id}] interpolates;
    - [createdPlaylist]: [None] for [null];
    - [searchData]: [None] when [searchData.tracks.items[0]] cannot be
      read ([searchData], [tracks] or [items] is [null] or missing), and
      otherwise the [uri] of each entry of [items], of which the code looks
      at the first; entries are tracks with a string [uri], as the
      declaration [trackUris: string[]] has it;
    - the response to the batch call is not read at all. *)
Record Catalog := {
  me_response : list Request -> Result (option string);
  create_response : list Request -> Result (option CreatedPlaylist);
  search_response : list Request -> Result (option (list string));
  tracks_response : list Request -> Result unit
}.

Record World := {
  objs : gmap loc Playlist;        (* the Playlist objects *)
  arrays : gmap loc (list loc);    (* the Playlist[] arrays *)
  agents : gmap AgentId loc;       (* agent.playlists, for agents that have the property *)
  requests : list Request;         (* the [fetch] calls made so far, oldest first,
                                      whether they were answered or rejected *)
  steps : list string              (* names of the step.do calls started so far *)
}.

(** [const globalPlaylists: Playlist[] = []] (tools.ts:20). *)
Definition globalPlaylists : loc := 1%positive.

Definition initial_world : World :=
  {| objs := ∅; arrays := {[ globalPlaylists := [] ]}; agents := ∅;
     requests := []; steps := [] |}.

Definition set_objs (f : gmap loc Playlist -> gmap loc Playlist) (w : World) : World :=
  {| objs := f (objs w); arrays := arrays w; agents := agents w;
     requests := requests w; steps := steps w |}.

Definition set_arrays (f : gmap loc (list loc) -> gmap loc (list loc)) (w : World) : World :=
  {| objs := objs w; arrays := f (arrays w); agents := agents w;
     requests := requests w; steps := steps w |}.

Definition set_agents (f : gmap AgentId loc -> gmap AgentId loc) (w : World) : World :=
  {| objs := objs w; arrays := arrays w; agents := f (agents w);
     requests := requests w; steps := steps w |}.

Definition set_requests (f : list Request -> list Request) (w : World) : World :=
  {| objs := objs w; arrays := arrays w; agents := agents w;
     requests := f (requests w); steps := steps w |}.

Definition set_steps (f : list string -> list string) (w : World) : World :=
  {| objs := objs w; arrays := arrays w; agents := agents w;
     requests := requests w; steps := f (steps w) |}.

(** ** The monad: state plus thrown errors *)

Definition M (A : Type) : Type := World -> Result A * World.

#[global] Instance M_ret : MRet M := λ A a w, (Ok a, w).

#[global] Instance M_bind : MBind M := λ A B f c w,
  match c w with
  | (Ok a, w') => f a w'
  | (Throw e, w') => (Throw e, w')
  end.

Definition throw {A} (e : Error) : M A := λ w, (Throw e, w).
Definition get_world : M World := λ w, (Ok w, w).
Definition modify (f : World -> World) : M unit := λ w, (Ok tt, f w).

(** A list of calls made one after the other. *)
Fixpoint for_each {A B} (f : A -> M B) (xs : list A) : M (list B) :=
  match xs with
  | [] => mret []
  | x :: rest =>
      y ← f x;
      ys ← for_each f rest;
      mret (y :: ys)
  end.

(** Reading an object or an array through a reference; a reference that
    resolves to nothing behaves as [undefined] and the access throws. *)
Definition read_obj (l : loc) : M Playlist :=
  w ← get_world;
  match objs w !! l with
  | Some p => mret p
  | None => throw TypeError
  end.

Definition read_array (r : loc) : M (list loc) :=
  w ← get_world;
  match arrays w !! r with
  | Some refs => mret refs
  | None => throw TypeError
  end.

(** [array.push(l)] *)
Definition push_ref (r l : loc) : M unit :=
  refs ← read_array r;
  modify (set_arrays <[r := refs ++ [l]]>).

(** [playlist.songs.push(...more)] *)
Definition push_songs (l : loc) (more : list SongEntry) : M unit :=
  p ← read_obj l;
  modify (set_objs <[l := {| mood := mood p; songs := songs p ++ more |}]>).

(** [{ mood, songs: [] }]: a new object at a location not in use. *)
Definition new_playlist (m : string) : M loc :=
  w ← get_world;
  let l := fresh (dom (objs w)) in
  _ ← modify (set_objs <[l := {| mood := m; songs := [] |}]>);
  mret l.

(** ** A concrete environment, for running the model *)

Definition lower_ascii (c : ascii) : ascii :=
  let n := nat_of_ascii c in
  if (65 <=? n)%nat && (n <=? 90)%nat then ascii_of_nat (n + 32) else c.

(** [toLowerCase] on strings of ASCII characters. *)
Fixpoint ascii_toLowerCase (s : string) : string :=
  match s with
  | EmptyString => EmptyString
  | String c rest => String (lower_ascii c) (ascii_toLowerCase rest)
  end.

Definition track_of (query : string) : string := "spotify:track:" +:+ query.

Definition last_endpoint (log : list Request) : option Endpoint :=
  endpoint <$> last log.

(** A catalog that always answers, and resolves every query except
    ["Unknown"]. *)
Definition demo_catalog : Catalog :=
  {| me_response := λ _, Ok (Some "user1");
     create_response := λ _,
       Ok (Some {| cp_id := "pl1";
                   cp_spotify := Some "https://open.spotify.com/playlist/pl1" |});
     search_response := λ log,
       match last_endpoint log with
       | Some (GetSearch q) =>
           Ok (Some (if bool_decide (q = "Unknown") then [] else [track_of q]))
       | _ => Ok (Some [])
       end;
     tracks_response := λ _, Ok tt |}.

(** A catalog on which every call is rejected. *)
Definition dead_catalog : Catalog :=
  {| me_response := λ _, Throw FetchError;
     create_response := λ _, Throw FetchError;
     search_response := λ _, Throw FetchError;
     tracks_response := λ _, Throw FetchError |}.

(** A catalog that answers like [demo_catalog], except that the body of
    its answer to the creation is [null]. *)
Definition null_catalog : Catalog :=
  {| me_response := me_response demo_catalog;
     create_response := λ _, Ok None;
     search_response := search_response demo_catalog;
     tracks_response := tracks_response demo_catalog |}.

(** ** Observations on a world *)

(** The array an agent's tools work on: its own [playlists] property, or
    the global array once [ensurePlaylists] has bound it. *)
Definition playlists_of (w : World) (a : AgentId) : loc :=
  default globalPlaylists (agents w !! a).

(** The world after [ensurePlaylists] ran for agent [a]. *)
Definition bound (a : AgentId) (w : World) : World :=
  match agents w !! a with
  | Some _ => w
  | None => set_agents <[a := globalPlaylists]> w
  end.

(** No reference dangles: the global array exists, every agent property
    points at an array, every array element is an object. *)
Definition wf (w : World) : Prop :=
  is_Some (arrays w !! globalPlaylists)
  ∧ map_Forall (λ _ r, is_Some (arrays w !! r)) (agents w)
  ∧ map_Forall (λ _ refs, Forall (λ l, is_Some (objs w !! l)) refs) (arrays w).

#[global] Instance wf_dec w : Decision (wf w).
Proof. unfold wf. apply _. Defined.

Section Tools.

(** [String.prototype.toLowerCase]; the tools only ever compare its results. *)
Variable toLowerCase : string -> string.

(** [process.env.SPOTIFY_ACCESS_TOKEN] as interpolated into the header. *)
Variable accessToken : string.

Variable catalog : Catalog.

(** *** ensurePlaylists (tools.ts:23-28)

    [agent] is what [getCurrentAgent()] returned: [None] is [undefined], on
    which the [in] operator throws. *)
Definition ensurePlaylists (agent : option AgentId) : M loc :=
  match agent with
  | None => throw TypeError
  | Some a =>
      w ← get_world;
      match agents w !! a with
      | Some r => mret r
      | None =>
          _ ← modify (set_agents <[a := globalPlaylists]>);
          mret globalPlaylists
      end
  end.

(** [(p) => p.mood.toLowerCase() === mood.toLowerCase()] *)
Definition same_mood (m : string) (p : Playlist) : bool :=
  bool_decide (toLowerCase (mood p) = toLowerCase m).

(** [playlists.find(...)] over the references held by an array: the first
    element whose mood matches; an element that is no object throws. *)
Fixpoint find_in (os : gmap loc Playlist) (m : string) (refs : list loc)
  : Result (option loc) :=
  match refs with
  | [] => Ok None
  | l :: rest =>
      match os !! l with
      | None => Throw TypeError
      | Some p => if same_mood m p then Ok (Some l) else find_in os m rest
      end
  end.

Definition find_playlist (r : loc) (m : string) : M (option loc) :=
  refs ← read_array r;
  w ← get_world;
  match find_in (objs w) m refs with
  | Ok found => mret found
  | Throw e => throw e
  end.

(** *** getOrCreatePlaylist (tools.ts:31-41) *)
Definition getOrCreatePlaylist (agent : option AgentId) (m : string) : M loc :=
  playlists ← ensurePlaylists agent;
  found ← find_playlist playlists m;
  match found with
  | Some l => mret l
  | None =>
      l ← new_playlist m;
      _ ← push_ref playlists l;
      mret l
  end.

(** *** addSong (tools.ts:44-58) *)
Definition addSong (agent : option AgentId) (t : string) (ar : option string)
    (m : string) : M string :=
  playlist ← getOrCreatePlaylist agent m;
  _ ← push_songs playlist [{| title := t; artist := ar |}];
  mret ("Added " +:+ quoted t +:+ by_artist {| title := t; artist := ar |}
        +:+ " to your " +:+ quoted m +:+ " playlist.").

(** [`"${s.title}"${s.artist ? ` by ${s.artist}` : ""}`] *)
Definition show_song (s : SongEntry) : string := quoted (title s) +:+ by_artist s.

(** *** getSongsByMood (tools.ts:61-81)

    The guard on a missing or empty playlist is commented out in the source
    (lines 73-75), so [playlist.songs] is read on whatever [find] returned. *)
Definition getSongsByMood (agent : option AgentId) (m : string) : M string :=
  playlists ← ensurePlaylists agent;
  found ← find_playlist playlists m;
  match found with
  | None => throw TypeError
  | Some l =>
      playlist ← read_obj l;
      mret (join ", " (show_song <$> songs playlist))
  end.

(** *** recommendSongs (tools.ts:84-113)

    The tool returns either a message or the object
    [{ type: "llm_prompt", prompt, mood, playlist }], whose [playlist] is
    the stored object itself. *)
Inductive RecommendResult :=
| Message (text : string)
| LlmPrompt (prompt : string) (for_mood : string) (playlist : loc).

(** [`- "${s.title}"${s.artist ? ` by ${s.artist}` : ""}`] *)
Definition prompt_line (s : SongEntry) : string :=
  "- " +:+ quoted (title s) +:+ by_artist s.

(** The template literal of lines 101-109, with its line breaks and
    indentation. *)
Definition recommend_prompt (m : string) (ss : list SongEntry) : string :=
  newline +:+ "      You are recommending songs similar to the user's "
  +:+ quoted m +:+ " playlist:" +:+ newline
  +:+ "      " +:+ join newline (prompt_line <$> ss) +:+ newline
  +:+ newline
  +:+ "      Generate 3 similar song recommendations and ask the user: " +:+ newline
  +:+ "      " +:+ dquote +:+ "Do you want to add them to your " +:+ m
  +:+ " playlist? Reply yes or no." +:+ dquote +:+ newline
  +:+ "    ".

Definition no_songs_yet (m : string) : string :=
  "You don't have any songs in your " +:+ quoted m +:+ " playlist yet.".

Definition recommendSongs (agent : option AgentId) (m : string) : M RecommendResult :=
  playlists ← ensurePlaylists agent;
  found ← find_playlist playlists m;
  match found with
  | None => mret (Message (no_songs_yet m))
  | Some l =>
      playlist ← read_obj l;
      match songs playlist with
      | [] => mret (Message (no_songs_yet m))
      | _ :: _ => mret (LlmPrompt (recommend_prompt m (songs playlist)) m l)
      end
  end.

(** *** confirmAddRecommendedSongs (tools.ts:116-138)

    The argument object comes in two shapes: one that follows the input
    schema, and the object [{ songs: recommendedSongs }] that the workflow
    builds (workflows.ts:26-28), in which [confirm], [recommendedSongs] and
    [mood] are all [undefined]. *)
Inductive ConfirmInput :=
| Confirmation (confirm : bool) (recommendedSongs : list SongEntry) (m : string)
| SongsOnly (text : string).

Definition no_songs_added : string := "No songs were added.".

Definition confirmAddRecommendedSongs (agent : option AgentId) (input : ConfirmInput)
  : M string :=
  match input with
  | SongsOnly _ => mret no_songs_added          (* [!undefined] holds *)
  | Confirmation false _ _ => mret no_songs_added
  | Confirmation true recommendedSongs m =>
      playlist ← getOrCreatePlaylist agent m;
      _ ← push_songs playlist recommendedSongs;
      mret ("Added " +:+ pretty (length recommendedSongs) +:+ " songs to your "
            +:+ quoted m +:+ " playlist.")
  end.

(** *** createSpotifyPlaylist (tools.ts:141-213) *)

(** A request with the [Authorization] header of the configured token. *)
Definition request (e : Endpoint) : Request :=
  {| bearer := accessToken; endpoint := e |}.

(** One [fetch]: the request is appended to the log, which is what the
    catalog answers from. *)
Definition fetch (e : Endpoint) : M (list Request) :=
  _ ← modify (set_requests (λ log, log ++ [request e]));
  w ← get_world;
  mret (requests w).

(** Lines 161-164 and the read of [userData.id] at line 167, which comes
    before the second request is sent. *)
Definition fetch_me : M string :=
  log ← fetch GetMe;
  match me_response catalog log with
  | Throw e => throw e
  | Ok None => throw TypeError
  | Ok (Some id) => mret id
  end.

(** Lines 166-181: the body is kept as it is, [null] or not; nothing is
    read off it yet. *)
Definition fetch_create (userId name description : string)
  : M (option CreatedPlaylist) :=
  log ← fetch (PostPlaylist userId name description false);
  match create_response catalog log with
  | Throw e => throw e
  | Ok createdPlaylist => mret createdPlaylist
  end.

(** Lines 186-193: [encodeURIComponent(query)] is evaluated, and may throw,
    before the request is sent; [searchData.tracks.items] is read after the
    answer has come. *)
Definition fetch_search (query : string) : M (list string) :=
  if lone_surrogate query then throw URIError
  else
    log ← fetch (GetSearch query);
    match search_response catalog log with
    | Throw e => throw e
    | Ok None => throw TypeError
    | Ok (Some items) => mret items
    end.

(** Lines 198-208: [createdPlaylist.id] is read, on what may be [null],
    before the request is sent. *)
Definition fetch_tracks (createdPlaylist : option CreatedPlaylist)
    (uris : list string) : M unit :=
  match createdPlaylist with
  | None => throw TypeError
  | Some created =>
      log ← fetch (PostTracks (cp_id created) uris);
      match tracks_response catalog log with
      | Throw e => throw e
      | Ok _ => mret tt
      end
  end.

(** [song.artist ? `${song.title} ${song.artist}` : song.title] *)
Definition search_query (song : SongEntry) : string :=
  if truthy (artist song) then title song +:+ " " +:+ artist_text song
  else title song.

(** The loop of lines 184-195, with [trackUris] as accumulator:
    [items[0]], when there is one, is pushed. *)
Fixpoint resolve_tracks (ss : list SongEntry) (trackUris : list string)
  : M (list string) :=
  match ss with
  | [] => mret trackUris
  | song :: rest =>
      items ← fetch_search (search_query song);
      resolve_tracks rest
        match items with
        | uri :: _ => trackUris ++ [uri]
        | [] => trackUris
        end
  end.

Definition no_songs_found (m : string) : string :=
  "No songs found in your " +:+ quoted m +:+ " playlist.".

(** [`Playlist generated from your "${mood}" songs`] *)
Definition description_for (m : string) : string :=
  "Playlist generated from your " +:+ quoted m +:+ " songs".

Definition playlist_created (playlistName url : string) : string :=
  "Spotify playlist " +:+ quoted playlistName +:+ " created! Listen here: " +:+ url.

(** The body after the guard (lines 158-211); [console.log] of the token is
    not represented. *)
Definition publish (m playlistName : string) (ss : list SongEntry) : M string :=
  userId ← fetch_me;
  createdPlaylist ← fetch_create userId playlistName (description_for m);
  trackUris ← resolve_tracks ss [];
  _ ← match trackUris with
      | [] => mret tt
      | _ :: _ => fetch_tracks createdPlaylist trackUris
      end;
  match createdPlaylist ≫= cp_spotify with
  | Some url => mret (playlist_created playlistName url)
  | None => throw TypeError
  end.

Definition createSpotifyPlaylist (agent : option AgentId) (m playlistName : string)
  : M string :=
  playlists ← ensurePlaylists agent;
  found ← find_playlist playlists m;
  match found with
  | None => mret (no_songs_found m)
  | Some l =>
      playlist ← read_obj l;
      match songs playlist with
      | [] => mret (no_songs_found m)
      | _ :: _ => publish m playlistName (songs playlist)
      end
  end.

(** *** PlaylistWorkflow.run (workflows.ts:11-45)

    [step.do(name, callback)] is taken as running the callback once; the
    name is recorded.  Checkpointing and retries belong to the workflow
    runtime and are not represented. *)
Definition step_do {A} (name : string) (callback : M A) : M A :=
  _ ← modify (set_steps (λ names, names ++ [name]));
  callback.

Definition canceled : string := "Playlist creation canceled by user.".

(** The body of [run] with the argument object of the Confirm step left
    open, so that a confirmation supplied from outside can be stated;
    [!s || s.length === 0] on a string is [negb (truthy_string s)]. *)
Definition run_with (confirm_input : string -> ConfirmInput)
    (agent : option AgentId) (m playlistName : string) : M string :=
  recommendedSongs ← step_do "recommend songs" (getSongsByMood agent m);
  if negb (truthy_string recommendedSongs)
  then mret ("No songs found for mood " +:+ quoted m +:+ ".")
  else
    confirmed ← step_do "confirm songs"
      (confirmAddRecommendedSongs agent (confirm_input recommendedSongs));
    if negb (truthy_string confirmed)
    then mret canceled
    else step_do "create Spotify playlist" (createSpotifyPlaylist agent m playlistName).

(** [run] as written: the Confirm step receives [{ songs: recommendedSongs }]. *)
Definition run (agent : option AgentId) (m playlistName : string) : M string :=
  run_with SongsOnly agent m playlistName.

(** ** Reading the store *)

(** [PlaylistStore.find]: the first playlist of array [r] whose mood equals
    [m] up to case, if the array can be searched. *)
Definition find (w : World) (r : loc) (m : string) : option loc :=
  match arrays w !! r with
  | Some refs =>
      match find_in (objs w) m refs with
      | Ok found => found
      | Throw _ => None
      end
  | None => None
  end.

Definition stored (w : World) (r : loc) (m : string) : option Playlist :=
  find w r m ≫= λ l, objs w !! l.

(** The songs stored for a mood; none when there is no such playlist. *)
Definition stored_songs (w : World) (r : loc) (m : string) : list SongEntry :=
  default [] (songs <$> stored w r m).

(** The lower-cased moods held by an array, in order. *)
Definition mood_keys (w : World) (refs : list loc) : list (option string) :=
  (λ l, toLowerCase ∘ mood <$> objs w !! l) <$> refs.

(** At most one playlist per case-insensitive mood, in every array. *)
Definition unique_moods (w : World) : Prop :=
  map_Forall (λ _ refs, NoDup (mood_keys w refs)) (arrays w).

(** Absent or empty, in terms of the stored songs. *)
Definition nothing_stored (w : World) (r : loc) (m : string) : Prop :=
  stored w r m = None ∨ ∃ p, stored w r m = Some p ∧ songs p = [].

(** *** Worlds after a call *)

(** The world after a playlist for [m] was created for agent [a]. *)
Definition created (a : AgentId) (m : string) (w : World) : World :=
  let l := fresh (dom (objs w)) in
  let r := playlists_of w a in
  set_arrays <[r := default [] (arrays w !! r) ++ [l]]>
    (set_objs <[l := {| mood := m; songs := [] |}]> (bound a w)).

(** What [getOrCreatePlaylist] for agent [a] and mood [m] followed by
    [songs.push(...more)] leaves behind: [w] is the world before, [l] the
    playlist used, [w'] the world after.  [addSong] and
    [confirmAddRecommendedSongs] share this shape. *)
Record appended (a : AgentId) (m : string) (more : list SongEntry)
    (w : World) (l : loc) (w' : World) : Prop := {
  app_wf : wf w';
  app_find : ∀ m', toLowerCase m' = toLowerCase m →
             find w' (playlists_of w a) m' = Some l;
  app_obj : objs w' !! l
            = Some {| mood := default m (mood <$> stored w (playlists_of w a) m);
                      songs := stored_songs w (playlists_of w a) m ++ more |};
  app_found : ∀ l0, find w (playlists_of w a) m = Some l0 →
              l0 = l ∧ arrays w' = arrays w;
  app_created : find w (playlists_of w a) m = None →
                objs w !! l = None
                ∧ arrays w' = <[playlists_of w a :=
                      default [] (arrays w !! playlists_of w a) ++ [l]]> (arrays w);
  app_objs : ∀ l0, l0 ≠ l → objs w' !! l0 = objs w !! l0;
  app_agents : agents w' = <[a := playlists_of w a]> (agents w);
  app_requests : requests w' = requests w;
  app_steps : steps w' = steps w
}.

(** *** Sequences of calls *)

(** Songs added one call after the other, all for mood [m]. *)
Definition addSongs (a : AgentId) (m : string) (news : list SongEntry) : M (list string) :=
  for_each (λ s, addSong (Some a) (title s) (artist s) m) news.

(** A sequence of [getOrCreatePlaylist] calls, each by some agent for some
    mood. *)
Definition getOrCreate_all (calls : list (AgentId * string)) : M (list loc) :=
  for_each (λ c, getOrCreatePlaylist (Some c.1) c.2) calls.

(** The worlds the tools can produce: the initial one, and the world any
    tool call leaves behind, whether it returns or throws. *)
Inductive reachable : World → Prop :=
| reach_initial : reachable initial_world
| reach_addSong w agent t ar m :
    reachable w → reachable (addSong agent t ar m w).2
| reach_getSongsByMood w agent m :
    reachable w → reachable (getSongsByMood agent m w).2
| reach_recommendSongs w agent m :
    reachable w → reachable (recommendSongs agent m w).2
| reach_confirmAddRecommendedSongs w agent input :
    reachable w → reachable (confirmAddRecommendedSongs agent input w).2
| reach_createSpotifyPlaylist w agent m playlistName :
    reachable w → reachable (createSpotifyPlaylist agent m playlistName w).2.

(** The store invariant of the data model, on top of well-formedness. *)
Definition invariant (w : World) : Prop := wf w ∧ unique_moods w.

(** *** The requests a publication should make *)

(** The world after the requests [new] were sent. *)
Definition sent (new : list Request) (w : World) : World :=
  set_requests (λ log, log ++ new) w.

(** The creation of the remote playlist: private, with the name asked for
    and the description made from the mood. *)
Definition creation (userId playlistName m : string) : Request :=
  request (PostPlaylist userId playlistName
             ("Playlist generated from your " +:+ quoted m +:+ " songs") false).

(** The two requests every publication starts with. *)
Definition opening (userId playlistName m : string) : list Request :=
  [request GetMe; creation userId playlistName m].

(** The query for a song: title, a space and the artist when the song has
    an artist that is not the empty string, the title alone otherwise. *)
Definition query_of (s : SongEntry) : string :=
  match artist s with
  | Some (String c ar) => title s +:+ " " +:+ String c ar
  | _ => title s
  end.

Definition search_of (s : SongEntry) : Request := request (GetSearch (query_of s)).

(** One search request per song, in stored order. *)
Definition searches (ss : list SongEntry) : list Request := search_of <$> ss.

(** The catalog's answer to the search for [s], sent after the requests
    [log]. *)
Definition search_answer (log : list Request) (s : SongEntry)
  : Result (option (list string)) :=
  search_response catalog (log ++ [search_of s]).

(** Every song of [ss], searched in order after the requests [log], has a
    query that can be encoded and gets an answer whose items can be read. *)
Fixpoint answered (log : list Request) (ss : list SongEntry) : Prop :=
  match ss with
  | [] => True
  | s :: rest =>
      lone_surrogate (query_of s) = false
      ∧ (∃ items, search_answer log s = Ok (Some items))
      ∧ answered (log ++ [search_of s]) rest
  end.

(** How the search for [s], coming after the requests [log], fails: with
    which error, and having sent which requests. *)
Inductive search_failure (log : list Request) (s : SongEntry)
  : Error → list Request → Prop :=
| query_not_encodable :
    lone_surrogate (query_of s) = true →
    search_failure log s URIError []
| search_rejected e :
    lone_surrogate (query_of s) = false →
    search_answer log s = Throw e →
    search_failure log s e [search_of s]
| search_unreadable :
    lone_surrogate (query_of s) = false →
    search_answer log s = Ok None →
    search_failure log s TypeError [search_of s].

(** What each song resolves to when searched in stored order after the
    requests [log]: the first match of its own search, if any. *)
Fixpoint resolutions (log : list Request) (ss : list SongEntry)
  : list (option string) :=
  match ss with
  | [] => []
  | s :: rest =>
      match search_answer log s with
      | Ok (Some (uri :: _)) => Some uri
      | _ => None
      end :: resolutions (log ++ [search_of s]) rest
  end.

(** The resolved tracks, unresolved songs skipped. *)
Definition resolved (log : list Request) (ss : list SongEntry) : list string :=
  omap id (resolutions log ss).

(** The batch call, made only when something resolved. *)
Definition attach (playlistId : string) (tracks : list string) : list Request :=
  match tracks with
  | [] => []
  | _ :: _ => [request (PostTracks playlistId tracks)]
  end.

(** The endings of a publication of the songs [ss], started in world [w]:
    what the catalog answered, what is returned or thrown, and the world
    left behind.  The conditions exclude one another. *)
Inductive publication (w : World) (m playlistName : string) (ss : list SongEntry)
  : Result string * World → Prop :=
| lookup_rejected e :
    me_response catalog (requests w ++ [request GetMe]) = Throw e →
    publication w m playlistName ss (Throw e, sent [request GetMe] w)
| lookup_null :
    me_response catalog (requests w ++ [request GetMe]) = Ok None →
    publication w m playlistName ss (Throw TypeError, sent [request GetMe] w)
| creation_rejected userId e :
    me_response catalog (requests w ++ [request GetMe]) = Ok (Some userId) →
    create_response catalog (requests w ++ opening userId playlistName m) = Throw e →
    publication w m playlistName ss (Throw e, sent (opening userId playlistName m) w)
| search_fails userId body before s after e new :
    me_response catalog (requests w ++ [request GetMe]) = Ok (Some userId) →
    create_response catalog (requests w ++ opening userId playlistName m) = Ok body →
    ss = before ++ s :: after →
    answered (requests w ++ opening userId playlistName m) before →
    search_failure (requests w ++ opening userId playlistName m ++ searches before)
      s e new →
    publication w m playlistName ss
      (Throw e, sent (opening userId playlistName m ++ searches before ++ new) w)
| creation_null userId :
    me_response catalog (requests w ++ [request GetMe]) = Ok (Some userId) →
    create_response catalog (requests w ++ opening userId playlistName m) = Ok None →
    answered (requests w ++ opening userId playlistName m) ss →
    publication w m playlistName ss
      (Throw TypeError, sent (opening userId playlistName m ++ searches ss) w)
| attach_rejected userId created uri uris e :
    me_response catalog (requests w ++ [request GetMe]) = Ok (Some userId) →
    create_response catalog (requests w ++ opening userId playlistName m)
    = Ok (Some created) →
    answered (requests w ++ opening userId playlistName m) ss →
    resolved (requests w ++ opening userId playlistName m) ss = uri :: uris →
    tracks_response catalog
      (requests w ++ opening userId playlistName m ++ searches ss
       ++ [request (PostTracks (cp_id created) (uri :: uris))])
    = Throw e →
    publication w m playlistName ss
      (Throw e,
       sent (opening userId playlistName m ++ searches ss
             ++ [request (PostTracks (cp_id created) (uri :: uris))]) w)
| url_missing userId created :
    me_response catalog (requests w ++ [request GetMe]) = Ok (Some userId) →
    create_response catalog (requests w ++ opening userId playlistName m)
    = Ok (Some created) →
    answered (requests w ++ opening userId playlistName m) ss →
    (∀ uri uris,
       resolved (requests w ++ opening userId playlistName m) ss = uri :: uris →
       tracks_response catalog
         (requests w ++ opening userId playlistName m ++ searches ss
          ++ [request (PostTracks (cp_id created) (uri :: uris))])
       = Ok tt) →
    cp_spotify created = None →
    publication w m playlistName ss
      (Throw TypeError,
       sent (opening userId playlistName m ++ searches ss
             ++ attach (cp_id created)
                  (resolved (requests w ++ opening userId playlistName m) ss)) w)
| published userId created url :
    me_response catalog (requests w ++ [request GetMe]) = Ok (Some userId) →
    create_response catalog (requests w ++ opening userId playlistName m)
    = Ok (Some created) →
    answered (requests w ++ opening userId playlistName m) ss →
    (∀ uri uris,
       resolved (requests w ++ opening userId playlistName m) ss = uri :: uris →
       tracks_response catalog
         (requests w ++ opening userId playlistName m ++ searches ss
          ++ [request (PostTracks (cp_id created) (uri :: uris))])
       = Ok tt) →
    cp_spotify created = Some url →
    publication w m playlistName ss
      (Ok ("Spotify playlist " +:+ quoted playlistName +:+ " created! Listen here: "
           +:+ url),
       sent (opening userId playlistName m ++ searches ss
             ++ attach (cp_id created)
                  (resolved (requests w ++ opening userId playlistName m) ss)) w).

(** *** Runs of the tools in general *)

(** The part of a world that makes up the playlist store. *)
Definition local_store (w : World)
  : gmap loc Playlist * gmap loc (list loc) * gmap AgentId loc :=
  (objs w, arrays w, agents w).

(** [ensures part Q c]: whatever the world, [c] leaves the part [part] of
    it alone, and a value it returns satisfies [Q].  Nothing is said about
    the value when [c] throws. *)
Definition ensures {A X} (part : World → X) (Q : A → Prop) (c : M A) : Prop :=
  ∀ w, part (c w).2 = part w
       ∧ match (c w).1 with
         | Ok x => Q x
         | Throw _ => True
         end.

(** What a run that started in world [w] can end in: the result is never
    the cancellation message, and the steps started are Recommend alone, or
    Recommend and Confirm with Confirm throwing, or all three. *)
Definition run_outcome (w : World) (out : Result string * World) : Prop :=
  out.1 ≠ Ok canceled
  ∧ (steps out.2 = steps w ++ ["recommend songs"]
     ∨ (steps out.2 = steps w ++ ["recommend songs"; "confirm songs"]
        ∧ ∃ e, out.1 = Throw e)
     ∨ steps out.2
       = steps w ++ ["recommend songs"; "confirm songs"; "create Spotify playlist"]).

(** *** Text *)

(** [needle] occurs in [text]. *)
Definition contains (needle text : string) : Prop :=
  ∃ before after, text = before +:+ needle +:+ after.

(** *** Searching an array *)

Lemma find_in_total os m refs :
  Forall (λ l, is_Some (os !! l)) refs → ∃ found, find_in os m refs = Ok found.
Proof.
  induction 1 as [|l refs [p Hp] _ IH]; simpl; [by eexists|].
  rewrite Hp. destruct (same_mood m p); [by eexists | exact IH].
Qed.

Lemma find_in_Some os m refs l :
  find_in os m refs = Ok (Some l) →
  l ∈ refs ∧ ∃ p, os !! l = Some p ∧ toLowerCase (mood p) = toLowerCase m.
Proof.
  induction refs as [|l0 refs IH]; simpl; [done|].
  destruct (os !! l0) as [p|] eqn:Hp; [|done].
  unfold same_mood. case_bool_decide as Hm.
  - intros [= <-]. split; [left|]. by exists p.
  - intros H. destruct (IH H) as [? ?]. split; [by right | done].
Qed.

Lemma find_in_None os m refs :
  find_in os m refs = Ok None →
  Forall (λ l, ∃ p, os !! l = Some p ∧ toLowerCase (mood p) ≠ toLowerCase m) refs.
Proof.
  induction refs as [|l0 refs IH]; simpl; [by constructor|].
  destruct (os !! l0) as [p|] eqn:Hp; [|done].
  unfold same_mood. case_bool_decide as Hm; [done|].
  intros H. constructor; [by exists p | by apply IH].
Qed.

(** The search only looks at the lower-cased mood. *)
Lemma find_in_case os m1 m2 refs :
  toLowerCase m1 = toLowerCase m2 → find_in os m1 refs = find_in os m2 refs.
Proof.
  intros Hm. induction refs as [|l refs IH]; simpl; [done|].
  destruct (os !! l) as [p|]; [|done].
  unfold same_mood. rewrite Hm, IH. done.
Qed.

(** Replacing an object by one of the same mood does not change the search. *)
Lemma find_in_insert_same_mood os m refs l p p' :
  os !! l = Some p → mood p' = mood p →
  find_in (<[l := p']> os) m refs = find_in os m refs.
Proof.
  intros Hl Hmood. induction refs as [|l0 refs IH]; simpl; [done|].
  destruct (decide (l0 = l)) as [->|Hne].
  - rewrite lookup_insert_eq, Hl. unfold same_mood. rewrite Hmood, IH. done.
  - rewrite lookup_insert_ne by done. rewrite IH. done.
Qed.

(** A playlist pushed after an unsuccessful search is what the next search
    for the same mood finds. *)
Lemma find_in_pushed os m m' refs l ss :
  find_in os m refs = Ok None → os !! l = None →
  toLowerCase m' = toLowerCase m →
  find_in (<[l := {| mood := m'; songs := ss |}]> os) m (refs ++ [l]) = Ok (Some l).
Proof.
  intros Hnone Hl Hm. induction refs as [|l0 refs IH]; simpl in *.
  - rewrite lookup_insert_eq. unfold same_mood. simpl.
    by rewrite bool_decide_eq_true_2.
  - destruct (os !! l0) as [p|] eqn:Hp; [|done].
    assert (l0 ≠ l) by congruence.
    rewrite lookup_insert_ne by done. rewrite Hp.
    destruct (same_mood m p); [done|]. by apply IH.
Qed.

(** *** Running the monad *)

Lemma bind_ok {A B} (c : M A) (f : A → M B) w a w' :
  c w = (Ok a, w') → (c ≫= f) w = f a w'.
Proof. intros H. unfold mbind, M_bind. by rewrite H. Qed.

Lemma read_obj_run l p w : objs w !! l = Some p → read_obj l w = (Ok p, w).
Proof. intros H. unfold read_obj, mbind, M_bind, get_world. by rewrite H. Qed.

Lemma read_array_run r refs w :
  arrays w !! r = Some refs → read_array r w = (Ok refs, w).
Proof. intros H. unfold read_array, mbind, M_bind, get_world. by rewrite H. Qed.

Lemma push_songs_run l p more w :
  objs w !! l = Some p →
  push_songs l more w
  = (Ok tt, set_objs <[l := {| mood := mood p; songs := songs p ++ more |}]> w).
Proof. intros H. unfold push_songs. by rewrite (bind_ok _ _ _ _ _ (read_obj_run _ _ _ H)). Qed.

Lemma push_ref_run r refs l w :
  arrays w !! r = Some refs →
  push_ref r l w = (Ok tt, set_arrays <[r := refs ++ [l]]> w).
Proof. intros H. unfold push_ref. by rewrite (bind_ok _ _ _ _ _ (read_array_run _ _ _ H)). Qed.

Lemma new_playlist_run m w :
  new_playlist m w
  = (Ok (fresh (dom (objs w))),
     set_objs <[fresh (dom (objs w)) := {| mood := m; songs := [] |}]> w).
Proof. done. Qed.

Lemma ensurePlaylists_run a w :
  ensurePlaylists (Some a) w = (Ok (playlists_of w a), bound a w).
Proof.
  unfold ensurePlaylists, playlists_of, bound, mbind, M_bind, get_world.
  by destruct (agents w !! a).
Qed.

Lemma objs_set_objs f w : objs (set_objs f w) = f (objs w).
Proof. done. Qed.

(** *** Binding an agent changes nothing but its property *)

Lemma objs_bound a w : objs (bound a w) = objs w.
Proof. unfold bound. by destruct (agents w !! a). Qed.

Lemma arrays_bound a w : arrays (bound a w) = arrays w.
Proof. unfold bound. by destruct (agents w !! a). Qed.

Lemma requests_bound a w : requests (bound a w) = requests w.
Proof. unfold bound. by destruct (agents w !! a). Qed.

Lemma steps_bound a w : steps (bound a w) = steps w.
Proof. unfold bound. by destruct (agents w !! a). Qed.

Lemma agents_bound a w : agents (bound a w) = <[a := playlists_of w a]> (agents w).
Proof.
  unfold bound, playlists_of. destruct (agents w !! a) as [r|] eqn:H; simpl; [|done].
  by rewrite insert_id.
Qed.

Lemma find_bound a w r m : find (bound a w) r m = find w r m.
Proof. unfold find. by rewrite objs_bound, arrays_bound. Qed.

(** *** Well-formed worlds *)

Lemma wf_initial : wf initial_world.
Proof.
  split_and!.
  - by eexists.
  - apply map_Forall_empty.
  - apply map_Forall_singleton. constructor.
Qed.

Lemma wf_playlists_of a w : wf w → is_Some (arrays w !! playlists_of w a).
Proof.
  intros (Hg & Ha & _). unfold playlists_of.
  destruct (agents w !! a) as [r|] eqn:H; simpl; [|done].
  exact (Ha _ _ H).
Qed.

Lemma wf_elements r refs w :
  wf w → arrays w !! r = Some refs → Forall (λ l, is_Some (objs w !! l)) refs.
Proof. intros (_ & _ & Hr) H. exact (Hr _ _ H). Qed.

Lemma wf_bound a w : wf w → wf (bound a w).
Proof.
  intros Hwf. pose proof (wf_playlists_of a w Hwf) as Hr.
  destruct Hwf as (Hg & Ha & Hr').
  unfold wf. rewrite objs_bound, arrays_bound, agents_bound.
  split_and!; [done | | done].
  by apply map_Forall_insert_2.
Qed.

(** In a well-formed world the search of an existing array does not throw. *)
Lemma find_playlist_run r m w :
  wf w → is_Some (arrays w !! r) → find_playlist r m w = (Ok (find w r m), w).
Proof.
  intros Hwf [refs Hrefs]. unfold find_playlist, find.
  rewrite (bind_ok _ _ _ _ _ (read_array_run _ _ _ Hrefs)).
  unfold mbind, M_bind, get_world. rewrite Hrefs.
  destruct (find_in_total (objs w) m refs (wf_elements _ _ _ Hwf Hrefs)) as [found ->].
  done.
Qed.

Lemma find_Some w r m l :
  find w r m = Some l →
  ∃ refs p, arrays w !! r = Some refs ∧ find_in (objs w) m refs = Ok (Some l)
            ∧ l ∈ refs ∧ objs w !! l = Some p ∧ toLowerCase (mood p) = toLowerCase m.
Proof.
  unfold find. destruct (arrays w !! r) as [refs|]; [|done].
  destruct (find_in (objs w) m refs) as [found|] eqn:Hf; [|done].
  intros ->. destruct (find_in_Some _ _ _ _ Hf) as (? & p & ? & ?).
  by exists refs, p.
Qed.

Lemma find_None w r m refs :
  wf w → arrays w !! r = Some refs → find w r m = None →
  find_in (objs w) m refs = Ok None.
Proof.
  intros Hwf Hrefs. unfold find. rewrite Hrefs.
  destruct (find_in_total (objs w) m refs (wf_elements _ _ _ Hwf Hrefs)) as [found ->].
  by intros ->.
Qed.

(** Lookup is case-insensitive. *)
Lemma find_case w r m1 m2 :
  toLowerCase m1 = toLowerCase m2 → find w r m1 = find w r m2.
Proof.
  intros Hm. unfold find. destruct (arrays w !! r); [|done].
  by rewrite (find_in_case _ _ _ _ Hm).
Qed.

(** *** getOrCreatePlaylist *)

Lemma fresh_obj w : objs w !! fresh (dom (objs w)) = None.
Proof. apply not_elem_of_dom, is_fresh. Qed.

Lemma getOrCreatePlaylist_found a m w l :
  wf w → find w (playlists_of w a) m = Some l →
  getOrCreatePlaylist (Some a) m w = (Ok l, bound a w).
Proof.
  intros Hwf Hfind. unfold getOrCreatePlaylist.
  rewrite (bind_ok _ _ _ _ _ (ensurePlaylists_run a w)).
  assert (is_Some (arrays (bound a w) !! playlists_of w a)) as Hr
    by (rewrite arrays_bound; by apply wf_playlists_of).
  rewrite (bind_ok _ _ _ _ _ (find_playlist_run _ m _ (wf_bound a w Hwf) Hr)).
  by rewrite find_bound, Hfind.
Qed.

Lemma getOrCreatePlaylist_new a m w :
  wf w → find w (playlists_of w a) m = None →
  getOrCreatePlaylist (Some a) m w = (Ok (fresh (dom (objs w))), created a m w).
Proof.
  intros Hwf Hfind. unfold getOrCreatePlaylist.
  rewrite (bind_ok _ _ _ _ _ (ensurePlaylists_run a w)).
  destruct (wf_playlists_of a w Hwf) as [refs Hrefs].
  assert (is_Some (arrays (bound a w) !! playlists_of w a)) as Hr
    by (rewrite arrays_bound; by eexists).
  rewrite (bind_ok _ _ _ _ _ (find_playlist_run _ m _ (wf_bound a w Hwf) Hr)).
  rewrite find_bound, Hfind.
  rewrite (bind_ok _ _ _ _ _ (new_playlist_run m (bound a w))).
  assert (arrays (set_objs <[fresh (dom (objs (bound a w)))
                              := {| mood := m; songs := [] |}]> (bound a w))
            !! playlists_of w a = Some refs) as Hrefs'
    by (simpl; by rewrite arrays_bound).
  rewrite (bind_ok _ _ _ _ _ (push_ref_run _ _ (fresh (dom (objs (bound a w)))) _ Hrefs')).
  unfold created. by rewrite objs_bound, Hrefs.
Qed.

Lemma objs_created a m w :
  objs (created a m w)
  = <[fresh (dom (objs w)) := {| mood := m; songs := [] |}]> (objs w).
Proof. unfold created. simpl. by rewrite objs_bound. Qed.

Lemma arrays_created a m w :
  arrays (created a m w)
  = <[playlists_of w a :=
        default [] (arrays w !! playlists_of w a) ++ [fresh (dom (objs w))]]> (arrays w).
Proof. unfold created. simpl. by rewrite arrays_bound. Qed.

Lemma agents_created a m w :
  agents (created a m w) = <[a := playlists_of w a]> (agents w).
Proof. unfold created. simpl. by rewrite agents_bound. Qed.

Lemma wf_created a m w : wf w → wf (created a m w).
Proof.
  intros Hwf. pose proof (wf_bound a w Hwf) as (Hg & Ha & Hr).
  destruct (wf_playlists_of a w Hwf) as [refs Hrefs].
  unfold wf. rewrite objs_created, arrays_created, agents_created, Hrefs. simpl.
  rewrite agents_bound, arrays_bound in Ha. rewrite arrays_bound, objs_bound in Hr.
  rewrite arrays_bound in Hg.
  split_and!.
  - destruct (decide (playlists_of w a = globalPlaylists)) as [->|Hne].
    + rewrite lookup_insert_eq. by eexists.
    + by rewrite lookup_insert_ne.
  - intros a' r' H'. specialize (Ha a' r' H'). simpl in Ha.
    destruct (decide (playlists_of w a = r')) as [->|Hne].
    + rewrite lookup_insert_eq. by eexists.
    + by rewrite lookup_insert_ne.
  - apply map_Forall_insert_2.
    + apply Forall_app. split.
      * eapply Forall_impl; [exact (Hr _ _ Hrefs)|]. simpl. intros l [p Hp].
        destruct (decide (fresh (dom (objs w)) = l)) as [<-|Hne].
        -- by rewrite fresh_obj in Hp.
        -- rewrite lookup_insert_ne by done. by eexists.
      * constructor; [|constructor]. rewrite lookup_insert_eq. by eexists.
    + intros r' refs' H'. eapply Forall_impl; [exact (Hr _ _ H')|].
      simpl. intros l [p Hp].
      destruct (decide (fresh (dom (objs w)) = l)) as [<-|Hne].
      * by rewrite fresh_obj in Hp.
      * rewrite lookup_insert_ne by done. by eexists.
Qed.

(** The new playlist is what a lookup of its mood, in any casing, finds. *)
Lemma find_created a m m' w :
  wf w → find w (playlists_of w a) m = None → toLowerCase m' = toLowerCase m →
  find (created a m w) (playlists_of w a) m' = Some (fresh (dom (objs w))).
Proof.
  intros Hwf Hfind Hm. destruct (wf_playlists_of a w Hwf) as [refs Hrefs].
  unfold find. rewrite arrays_created, objs_created, lookup_insert_eq, Hrefs. simpl.
  rewrite (find_in_case _ _ _ _ Hm).
  by rewrite (find_in_pushed _ m m refs _ [] (find_None _ _ _ _ Hwf Hrefs Hfind)
                (fresh_obj w) eq_refl).
Qed.

(** Appending songs to a stored playlist keeps every lookup. *)
Lemma find_push_songs w l p more r m :
  objs w !! l = Some p →
  find (set_objs <[l := {| mood := mood p; songs := songs p ++ more |}]> w) r m
  = find w r m.
Proof.
  intros Hl. unfold find. simpl. destruct (arrays w !! r) as [refs|]; [|done].
  by rewrite (find_in_insert_same_mood _ m refs _ _
                {| mood := mood p; songs := songs p ++ more |} Hl eq_refl).
Qed.

Lemma wf_push_songs w l p more :
  objs w !! l = Some p → wf w →
  wf (set_objs <[l := {| mood := mood p; songs := songs p ++ more |}]> w).
Proof.
  intros Hl (Hg & Ha & Hr). split_and!; simpl; [done | done |].
  intros r refs H. eapply Forall_impl; [exact (Hr _ _ H)|]. simpl.
  intros l0 [p0 Hp0]. destruct (decide (l = l0)) as [->|Hne].
  - rewrite lookup_insert_eq. by eexists.
  - rewrite lookup_insert_ne by done. by eexists.
Qed.

(** *** getOrCreatePlaylist followed by a push of songs *)

Lemma append_run {A} a m more (result : A) w :
  wf w →
  ∃ l w',
    (playlist ← getOrCreatePlaylist (Some a) m;
     _ ← push_songs playlist more;
     mret result) w = (Ok result, w')
    ∧ appended a m more w l w'.
Proof.
  intros Hwf. destruct (find w (playlists_of w a) m) as [l|] eqn:Hfind.
  - destruct (find_Some _ _ _ _ Hfind) as (refs & p & Hrefs & _ & _ & Hp & _).
    assert (objs (bound a w) !! l = Some p) as Hp' by by rewrite objs_bound.
    eexists l, _. split.
    + rewrite (bind_ok _ _ _ _ _ (getOrCreatePlaylist_found _ _ _ _ Hwf Hfind)).
      rewrite (bind_ok _ _ _ _ _ (push_songs_run _ _ more _ Hp')). done.
    + assert (stored w (playlists_of w a) m = Some p) as Hst
        by (unfold stored; by rewrite Hfind).
      split.
      * by apply wf_push_songs, wf_bound.
      * intros m' Hm'. rewrite (find_push_songs _ _ _ _ _ _ Hp'), find_bound.
        by rewrite (find_case _ _ _ _ Hm').
      * simpl. rewrite lookup_insert_eq. unfold stored_songs. by rewrite Hst.
      * intros l0 ?. simplify_eq. simpl. by rewrite arrays_bound.
      * congruence.
      * intros l0 Hne. simpl. rewrite lookup_insert_ne by done. by rewrite objs_bound.
      * simpl. apply agents_bound.
      * simpl. apply requests_bound.
      * simpl. apply steps_bound.
  - set (l := fresh (dom (objs w))).
    assert (objs (created a m w) !! l = Some {| mood := m; songs := [] |}) as Hp'
      by (rewrite objs_created; apply lookup_insert_eq).
    eexists l, _. split.
    + rewrite (bind_ok _ _ _ _ _ (getOrCreatePlaylist_new _ _ _ Hwf Hfind)).
      rewrite (bind_ok _ _ _ _ _ (push_songs_run _ _ more _ Hp')). done.
    + assert (stored w (playlists_of w a) m = None) as Hst
        by (unfold stored; by rewrite Hfind).
      split.
      * by apply wf_push_songs, wf_created.
      * intros m' Hm'. rewrite (find_push_songs _ _ _ _ _ _ Hp').
        by apply find_created.
      * simpl. rewrite lookup_insert_eq. unfold stored_songs. by rewrite Hst.
      * congruence.
      * intros _. split; [apply fresh_obj|]. simpl. apply (arrays_created a m w).
      * intros l0 Hne. rewrite objs_set_objs, lookup_insert_ne by done.
        rewrite objs_created. by rewrite lookup_insert_ne.
      * apply (agents_created a m w).
      * apply requests_bound.
      * apply steps_bound.
Qed.

Section Appended.

Context {a : AgentId} {m : string} {more : list SongEntry}
        {w : World} {l : loc} {w' : World}.
Hypothesis Happ : appended a m more w l w'.

Lemma appended_playlists_of a' : playlists_of w' a' = playlists_of w a'.
Proof.
  unfold playlists_of at 1. rewrite (app_agents _ _ _ _ _ _ Happ).
  destruct (decide (a = a')) as [->|Hne].
  - by rewrite lookup_insert_eq.
  - by rewrite lookup_insert_ne.
Qed.

Lemma appended_stored m' :
  toLowerCase m' = toLowerCase m →
  stored w' (playlists_of w a) m'
  = Some {| mood := default m (mood <$> stored w (playlists_of w a) m);
            songs := stored_songs w (playlists_of w a) m ++ more |}.
Proof.
  intros Hm'. unfold stored. rewrite (app_find _ _ _ _ _ _ Happ m' Hm'). simpl.
  apply (app_obj _ _ _ _ _ _ Happ).
Qed.


(** Objects that existed keep their mood. *)
Lemma appended_mood l0 p0 :
  objs w !! l0 = Some p0 → ∃ p0', objs w' !! l0 = Some p0' ∧ mood p0' = mood p0.
Proof.
  intros H0. destruct (decide (l0 = l)) as [->|Hne].
  - eexists. split; [apply (app_obj _ _ _ _ _ _ Happ)|]. simpl.
    destruct (find w (playlists_of w a) m) as [l1|] eqn:Hfind.
    + destruct (app_found _ _ _ _ _ _ Happ _ Hfind) as [-> _].
      unfold stored. rewrite Hfind. simpl. by rewrite H0.
    + destruct (app_created _ _ _ _ _ _ Happ Hfind) as [Hnone _]. congruence.
  - exists p0. by rewrite (app_objs _ _ _ _ _ _ Happ _ Hne).
Qed.

Lemma appended_keys refs :
  Forall (λ l0, is_Some (objs w !! l0)) refs → mood_keys w' refs = mood_keys w refs.
Proof.
  unfold mood_keys. induction 1 as [|l0 refs [p0 H0] _ IH]; [done|].
  destruct (appended_mood _ _ H0) as (p0' & H0' & Hmood).
  rewrite !fmap_cons, IH, H0, H0'. simpl. by rewrite Hmood.
Qed.

Lemma key_not_found refs :
  find_in (objs w) m refs = Ok None → Some (toLowerCase m) ∉ mood_keys w refs.
Proof.
  intros Hnone Hin. apply find_in_None in Hnone.
  unfold mood_keys in Hin. apply list_elem_of_fmap in Hin as (l0 & Hkey & Hl0).
  rewrite Forall_forall in Hnone. destruct (Hnone _ Hl0) as (p0 & Hp0 & Hne).
  rewrite Hp0 in Hkey. simpl in Hkey. congruence.
Qed.

(** The store invariant: no second playlist for a mood that differs only
    in case. *)
Lemma appended_unique : wf w → unique_moods w → unique_moods w'.
Proof.
  intros Hwf Huniq r' refs' Hrefs'.
  destruct (find w (playlists_of w a) m) as [l0|] eqn:Hfind.
  - destruct (app_found _ _ _ _ _ _ Happ _ Hfind) as [_ Harr].
    rewrite Harr in Hrefs'.
    rewrite (appended_keys _ (wf_elements _ _ _ Hwf Hrefs')).
    exact (Huniq _ _ Hrefs').
  - destruct (app_created _ _ _ _ _ _ Happ Hfind) as [Hnew Harr].
    destruct (wf_playlists_of a w Hwf) as [refs Hrefs].
    rewrite Harr, Hrefs in Hrefs'. simpl in Hrefs'.
    destruct (decide (playlists_of w a = r')) as [<-|Hne].
    + rewrite lookup_insert_eq in Hrefs'. injection Hrefs' as <-.
      unfold mood_keys. rewrite fmap_app. fold (mood_keys w' refs).
      rewrite (appended_keys _ (wf_elements _ _ _ Hwf Hrefs)).
      simpl. rewrite (app_obj _ _ _ _ _ _ Happ). simpl.
      unfold stored. rewrite Hfind. simpl.
      apply NoDup_app. split_and!.
      * exact (Huniq _ _ Hrefs).
      * intros k Hk Hk'. apply list_elem_of_singleton in Hk' as ->.
        exact (key_not_found _ (find_None _ _ _ _ Hwf Hrefs Hfind) Hk).
      * apply NoDup_singleton.
    + rewrite lookup_insert_ne in Hrefs' by done.
      rewrite (appended_keys _ (wf_elements _ _ _ Hwf Hrefs')).
      exact (Huniq _ _ Hrefs').
Qed.

End Appended.

(** Pushing no songs leaves the world as it is. *)
Lemma push_no_songs l p w :
  objs w !! l = Some p →
  set_objs <[l := {| mood := mood p; songs := songs p ++ [] |}]> w = w.
Proof.
  intros Hl. rewrite app_nil_r. destruct p as [pm ps]. simpl.
  unfold set_objs. rewrite (insert_id _ _ _ Hl). by destruct w.
Qed.

(** [getOrCreatePlaylist] on its own is the case of an empty push. *)
Lemma getOrCreatePlaylist_run a m w :
  wf w →
  ∃ l w', getOrCreatePlaylist (Some a) m w = (Ok l, w') ∧ appended a m [] w l w'.
Proof.
  intros Hwf. destruct (append_run a m [] tt w Hwf) as (l & w' & Hrun & Happ).
  exists l, w'. split; [|done].
  destruct (find w (playlists_of w a) m) as [l0|] eqn:Hfind.
  - destruct (app_found _ _ _ _ _ _ Happ _ Hfind) as [-> _].
    destruct (find_Some _ _ _ _ Hfind) as (_ & p & _ & _ & _ & Hp & _).
    assert (objs (bound a w) !! l = Some p) as Hp' by by rewrite objs_bound.
    rewrite (bind_ok _ _ _ _ _ (getOrCreatePlaylist_found _ _ _ _ Hwf Hfind)) in Hrun.
    rewrite (bind_ok _ _ _ _ _ (push_songs_run _ _ [] _ Hp')) in Hrun.
    rewrite (push_no_songs _ _ _ Hp') in Hrun. injection Hrun as <-.
    by apply getOrCreatePlaylist_found.
  - assert (objs (created a m w) !! fresh (dom (objs w))
            = Some {| mood := m; songs := [] |}) as Hp'
      by (rewrite objs_created; apply lookup_insert_eq).
    rewrite (bind_ok _ _ _ _ _ (getOrCreatePlaylist_new _ _ _ Hwf Hfind)) in Hrun.
    rewrite (bind_ok _ _ _ _ _ (push_songs_run _ _ [] _ Hp')) in Hrun.
    rewrite (push_no_songs _ _ _ Hp') in Hrun. injection Hrun as <-.
    pose proof (app_find _ _ _ _ _ _ Happ m eq_refl) as Hl.
    rewrite (find_created _ _ _ _ Hwf Hfind eq_refl) in Hl. injection Hl as <-.
    by apply getOrCreatePlaylist_new.
Qed.

(** *** The reading tools *)

Lemma stored_Some w r m p :
  stored w r m = Some p → ∃ l, find w r m = Some l ∧ objs w !! l = Some p.
Proof.
  unfold stored. destruct (find w r m) as [l|]; [|done]. simpl. by exists l.
Qed.

Lemma stored_None w r m : wf w → stored w r m = None → find w r m = None.
Proof.
  intros Hwf. unfold stored. destruct (find w r m) as [l|] eqn:Hfind; [|done].
  destruct (find_Some _ _ _ _ Hfind) as (_ & p & _ & _ & _ & Hp & _).
  simpl. by rewrite Hp.
Qed.

(** The prefix shared by the four tools that only look a playlist up. *)
Lemma lookup_run a m w :
  wf w →
  (playlists ← ensurePlaylists (Some a); find_playlist playlists m) w
  = (Ok (find w (playlists_of w a) m), bound a w).
Proof.
  intros Hwf. rewrite (bind_ok _ _ _ _ _ (ensurePlaylists_run a w)).
  rewrite find_playlist_run, find_bound; [done | by apply wf_bound |].
  rewrite arrays_bound. by apply wf_playlists_of.
Qed.

Lemma bind_assoc {A B C} (c : M A) (f : A → M B) (g : B → M C) w :
  ((c ≫= f) ≫= g) w = (c ≫= λ x, f x ≫= g) w.
Proof. unfold mbind, M_bind. by destruct (c w) as [[x|e] w1]. Qed.

Lemma getSongsByMood_found a m p w :
  wf w → stored w (playlists_of w a) m = Some p →
  getSongsByMood (Some a) m w = (Ok (join ", " (show_song <$> songs p)), bound a w).
Proof.
  intros Hwf Hst. destruct (stored_Some _ _ _ _ Hst) as (l & Hfind & Hp).
  unfold getSongsByMood. rewrite <- bind_assoc.
  rewrite (bind_ok _ _ _ _ _ (lookup_run a m w Hwf)), Hfind.
  rewrite (bind_ok _ _ _ _ _ (read_obj_run l p _ ltac:(by rewrite objs_bound))).
  done.
Qed.

Lemma getSongsByMood_absent a m w :
  wf w → stored w (playlists_of w a) m = None →
  getSongsByMood (Some a) m w = (Throw TypeError, bound a w).
Proof.
  intros Hwf Hst. unfold getSongsByMood. rewrite <- bind_assoc.
  rewrite (bind_ok _ _ _ _ _ (lookup_run a m w Hwf)).
  by rewrite (stored_None _ _ _ Hwf Hst).
Qed.

Lemma recommendSongs_nothing a m w :
  wf w → nothing_stored w (playlists_of w a) m →
  recommendSongs (Some a) m w = (Ok (Message (no_songs_yet m)), bound a w).
Proof.
  intros Hwf Hst. unfold recommendSongs. rewrite <- bind_assoc.
  rewrite (bind_ok _ _ _ _ _ (lookup_run a m w Hwf)).
  destruct Hst as [Hst | (p & Hst & Hempty)].
  - by rewrite (stored_None _ _ _ Hwf Hst).
  - destruct (stored_Some _ _ _ _ Hst) as (l & -> & Hp).
    rewrite (bind_ok _ _ _ _ _ (read_obj_run l p _ ltac:(by rewrite objs_bound))).
    by rewrite Hempty.
Qed.

Lemma recommendSongs_found a m p w :
  wf w → stored w (playlists_of w a) m = Some p → songs p ≠ [] →
  ∃ l, find w (playlists_of w a) m = Some l ∧ objs w !! l = Some p
       ∧ recommendSongs (Some a) m w
         = (Ok (LlmPrompt (recommend_prompt m (songs p)) m l), bound a w).
Proof.
  intros Hwf Hst Hne. destruct (stored_Some _ _ _ _ Hst) as (l & Hfind & Hp).
  exists l. split_and!; [done..|].
  unfold recommendSongs. rewrite <- bind_assoc.
  rewrite (bind_ok _ _ _ _ _ (lookup_run a m w Hwf)), Hfind.
  rewrite (bind_ok _ _ _ _ _ (read_obj_run l p _ ltac:(by rewrite objs_bound))).
  by destruct (songs p).
Qed.

Lemma createSpotifyPlaylist_nothing a m playlistName w :
  wf w → nothing_stored w (playlists_of w a) m →
  createSpotifyPlaylist (Some a) m playlistName w
  = (Ok (no_songs_found m), bound a w).
Proof.
  intros Hwf Hst. unfold createSpotifyPlaylist. rewrite <- bind_assoc.
  rewrite (bind_ok _ _ _ _ _ (lookup_run a m w Hwf)).
  destruct Hst as [Hst | (p & Hst & Hempty)].
  - by rewrite (stored_None _ _ _ Hwf Hst).
  - destruct (stored_Some _ _ _ _ Hst) as (l & -> & Hp).
    rewrite (bind_ok _ _ _ _ _ (read_obj_run l p _ ltac:(by rewrite objs_bound))).
    by rewrite Hempty.
Qed.

Lemma createSpotifyPlaylist_found a m playlistName p w :
  wf w → stored w (playlists_of w a) m = Some p → songs p ≠ [] →
  createSpotifyPlaylist (Some a) m playlistName w
  = publish m playlistName (songs p) (bound a w).
Proof.
  intros Hwf Hst Hne. destruct (stored_Some _ _ _ _ Hst) as (l & Hfind & Hp).
  unfold createSpotifyPlaylist. rewrite <- bind_assoc.
  rewrite (bind_ok _ _ _ _ _ (lookup_run a m w Hwf)), Hfind.
  rewrite (bind_ok _ _ _ _ _ (read_obj_run l p _ ltac:(by rewrite objs_bound))).
  by destruct (songs p).
Qed.

(** *** The catalog publisher *)

Lemma bind_throw {A B} (c : M A) (f : A → M B) w e w' :
  c w = (Throw e, w') → (c ≫= f) w = (Throw e, w').
Proof. intros H. unfold mbind, M_bind. by rewrite H. Qed.

Lemma requests_sent new w : requests (sent new w) = requests w ++ new.
Proof. done. Qed.

Lemma sent_sent new1 new2 w : sent new2 (sent new1 w) = sent (new1 ++ new2) w.
Proof. unfold sent, set_requests. simpl. by rewrite <- app_assoc. Qed.

Lemma sent_nil w : sent [] w = w.
Proof. destruct w. unfold sent, set_requests. simpl. by rewrite app_nil_r. Qed.

Lemma fetch_run e w : fetch e w = (Ok (requests w ++ [request e]), sent [request e] w).
Proof. done. Qed.

(** The query the code builds is the query as the specification words it,
    with an artist that is the empty string left out. *)
Lemma search_query_spec s : search_query s = query_of s.
Proof. unfold search_query, query_of, artist_text. by destruct (artist s) as [[|c ar]|]. Qed.

Lemma fetch_me_run w :
  fetch_me w
  = (match me_response catalog (requests w ++ [request GetMe]) with
     | Throw e => Throw e
     | Ok None => Throw TypeError
     | Ok (Some id) => Ok id
     end, sent [request GetMe] w).
Proof.
  unfold fetch_me. rewrite (bind_ok _ _ _ _ _ (fetch_run _ w)).
  by destruct (me_response catalog (requests w ++ [request GetMe])) as [[id|]|e].
Qed.

Lemma fetch_create_run userId playlistName m w :
  fetch_create userId playlistName (description_for m) w
  = (create_response catalog (requests w ++ [creation userId playlistName m]),
     sent [creation userId playlistName m] w).
Proof.
  unfold fetch_create. rewrite (bind_ok _ _ _ _ _ (fetch_run _ w)).
  change (request (PostPlaylist userId playlistName (description_for m) false))
    with (creation userId playlistName m).
  by destruct (create_response catalog (requests w ++ [creation userId playlistName m])).
Qed.

Lemma fetch_search_answered s items w :
  lone_surrogate (query_of s) = false →
  search_answer (requests w) s = Ok (Some items) →
  fetch_search (search_query s) w = (Ok items, sent [search_of s] w).
Proof.
  intros Hquery Hanswer. unfold fetch_search. rewrite search_query_spec, Hquery.
  rewrite (bind_ok _ _ _ _ _ (fetch_run _ w)).
  change (search_response catalog (requests w ++ [request (GetSearch (query_of s))]))
    with (search_answer (requests w) s).
  by rewrite Hanswer.
Qed.

Lemma fetch_search_fails s e new w :
  search_failure (requests w) s e new →
  fetch_search (search_query s) w = (Throw e, sent new w).
Proof.
  intros [Hquery | e' Hquery Hanswer | Hquery Hanswer];
    unfold fetch_search; rewrite search_query_spec, Hquery.
  - by rewrite sent_nil.
  - rewrite (bind_ok _ _ _ _ _ (fetch_run _ w)).
    change (search_response catalog (requests w ++ [request (GetSearch (query_of s))]))
      with (search_answer (requests w) s).
    by rewrite Hanswer.
  - rewrite (bind_ok _ _ _ _ _ (fetch_run _ w)).
    change (search_response catalog (requests w ++ [request (GetSearch (query_of s))]))
      with (search_answer (requests w) s).
    by rewrite Hanswer.
Qed.

(** A search is answered, or it fails in one of the three ways. *)
Lemma search_outcome log s :
  (lone_surrogate (query_of s) = false ∧ ∃ items, search_answer log s = Ok (Some items))
  ∨ ∃ e new, search_failure log s e new.
Proof.
  destruct (lone_surrogate (query_of s)) eqn:Hquery.
  { right. exists URIError, []. by constructor. }
  destruct (search_answer log s) as [[items|]|e] eqn:Hanswer.
  - left. split; [done|]. by exists items.
  - right. exists TypeError, [search_of s]. by constructor.
  - right. exists e, [search_of s]. by constructor.
Qed.

(** No search is both answered and failed, and it fails in one way only. *)
Lemma search_failure_unanswered log s e new :
  search_failure log s e new →
  lone_surrogate (query_of s) = false →
  ¬ ∃ items, search_answer log s = Ok (Some items).
Proof. intros [Hquery | e' _ Hanswer | _ Hanswer] Hq [items Hitems]; congruence. Qed.

Lemma resolve_tracks_cons s rest trackUris :
  resolve_tracks (s :: rest) trackUris
  = (fetch_search (search_query s) ≫= λ items,
       resolve_tracks rest
         match items with
         | uri :: _ => trackUris ++ [uri]
         | [] => trackUris
         end).
Proof. done. Qed.

(** The loop when every search is answered. *)
Lemma resolve_tracks_answered ss :
  ∀ trackUris w,
    answered (requests w) ss →
    resolve_tracks ss trackUris w
    = (Ok (trackUris ++ resolved (requests w) ss), sent (searches ss) w).
Proof.
  induction ss as [|s rest IH]; intros trackUris w Hanswered.
  - simpl. unfold resolved. simpl. by rewrite app_nil_r, sent_nil.
  - destruct Hanswered as (Hquery & [items Hitems] & Hrest).
    rewrite resolve_tracks_cons.
    rewrite (bind_ok _ _ _ _ _ (fetch_search_answered s items w Hquery Hitems)).
    rewrite IH by done. rewrite sent_sent, requests_sent.
    unfold resolved. simpl. rewrite Hitems. f_equal. f_equal.
    destruct items as [|uri items]; simpl; [done|]. by rewrite <- app_assoc.
Qed.

(** The loop when a search fails: it stops there. *)
Lemma resolve_tracks_stops before s after e new :
  ∀ trackUris w,
    answered (requests w) before →
    search_failure (requests w ++ searches before) s e new →
    resolve_tracks (before ++ s :: after) trackUris w
    = (Throw e, sent (searches before ++ new) w).
Proof.
  induction before as [|s0 rest IH]; intros trackUris w Hanswered Hfails.
  - simpl in Hfails. rewrite app_nil_r in Hfails.
    rewrite app_nil_l, resolve_tracks_cons.
    by rewrite (bind_throw _ _ _ _ _ (fetch_search_fails s e new w Hfails)).
  - destruct Hanswered as (Hquery & [items Hitems] & Hrest).
    change ((s0 :: rest) ++ s :: after) with (s0 :: (rest ++ s :: after)).
    rewrite resolve_tracks_cons.
    rewrite (bind_ok _ _ _ _ _ (fetch_search_answered s0 items w Hquery Hitems)).
    rewrite IH; [by rewrite sent_sent|done|].
    rewrite requests_sent, <- app_assoc. exact Hfails.
Qed.

(** Every search of the loop is answered, or there is a first one that
    fails. *)
Lemma searches_outcome ss :
  ∀ log,
    answered log ss
    ∨ ∃ before s after e new,
        ss = before ++ s :: after
        ∧ answered log before
        ∧ search_failure (log ++ searches before) s e new.
Proof.
  induction ss as [|s rest IH]; intros log; [by left|].
  destruct (search_outcome log s) as [[Hquery Hitems] | (e & new & Hfails)].
  - destruct (IH (log ++ [search_of s]))
      as [Hrest | (before & s' & after & e & new & -> & Hbefore & Hfails)].
    + left. by split_and!.
    + right. exists (s :: before), s', after, e, new. split_and!; [done| |].
      * by split_and!.
      * simpl. by rewrite <- app_assoc in Hfails.
  - right. exists [], s, rest, e, new. split_and!; [done..|].
    simpl. by rewrite app_nil_r.
Qed.

Lemma answered_app log before after :
  answered log (before ++ after)
  ↔ answered log before ∧ answered (log ++ searches before) after.
Proof.
  revert log. induction before as [|s rest IH]; intros log; simpl.
  - rewrite app_nil_r. tauto.
  - rewrite IH, <- app_assoc. simpl. tauto.
Qed.

(** A loop in which some search fails is not a loop in which every search
    is answered. *)
Lemma answered_no_failure log before s after e new :
  answered log (before ++ s :: after) →
  search_failure (log ++ searches before) s e new → False.
Proof.
  intros Hanswered Hfails. apply answered_app in Hanswered as [_ Hs].
  destruct Hs as (Hquery & Hitems & _).
  by eapply search_failure_unanswered.
Qed.

(** The publication up to the creation of the remote playlist. *)
Lemma publish_opened m playlistName ss w userId body :
  me_response catalog (requests w ++ [request GetMe]) = Ok (Some userId) →
  create_response catalog (requests w ++ opening userId playlistName m) = Ok body →
  publish m playlistName ss w
  = (trackUris ← resolve_tracks ss [];
     _ ← match trackUris with
         | [] => mret tt
         | _ :: _ => fetch_tracks body trackUris
         end;
     match body ≫= cp_spotify with
     | Some url => mret (playlist_created playlistName url)
     | None => throw TypeError
     end) (sent (opening userId playlistName m) w).
Proof.
  intros Hme Hcreate. unfold publish.
  assert (fetch_me w = (Ok userId, sent [request GetMe] w)) as H1
    by (by rewrite fetch_me_run, Hme).
  rewrite (bind_ok _ _ _ _ _ H1).
  assert (fetch_create userId playlistName (description_for m) (sent [request GetMe] w)
          = (Ok body, sent (opening userId playlistName m) w)) as H2.
  { rewrite fetch_create_run, requests_sent, <- app_assoc, sent_sent.
    change ([request GetMe] ++ [creation userId playlistName m])
      with (opening userId playlistName m).
    by rewrite Hcreate. }
  by rewrite (bind_ok _ _ _ _ _ H2).
Qed.

(** The publication up to the end of the search loop. *)
Lemma publish_searched m playlistName ss w userId body :
  me_response catalog (requests w ++ [request GetMe]) = Ok (Some userId) →
  create_response catalog (requests w ++ opening userId playlistName m) = Ok body →
  answered (requests w ++ opening userId playlistName m) ss →
  publish m playlistName ss w
  = (_ ← match resolved (requests w ++ opening userId playlistName m) ss with
         | [] => mret tt
         | _ :: _ =>
             fetch_tracks body (resolved (requests w ++ opening userId playlistName m) ss)
         end;
     match body ≫= cp_spotify with
     | Some url => mret (playlist_created playlistName url)
     | None => throw TypeError
     end) (sent (opening userId playlistName m ++ searches ss) w).
Proof.
  intros Hme Hcreate Hanswered.
  rewrite (publish_opened _ _ _ _ _ _ Hme Hcreate).
  rewrite (bind_ok _ _ _ _ _
             (resolve_tracks_answered ss [] (sent (opening userId playlistName m) w)
                Hanswered)).
  by rewrite sent_sent, requests_sent.
Qed.

Lemma fetch_tracks_run created uris w :
  fetch_tracks (Some created) uris w
  = (match tracks_response catalog
             (requests w ++ [request (PostTracks (cp_id created) uris)]) with
     | Throw e => Throw e
     | Ok _ => Ok tt
     end, sent [request (PostTracks (cp_id created) uris)] w).
Proof.
  unfold fetch_tracks. rewrite (bind_ok _ _ _ _ _ (fetch_run _ w)).
  by destruct (tracks_response catalog
                 (requests w ++ [request (PostTracks (cp_id created) uris)])).
Qed.

(** Each ending of a publication is what [publish] does under the
    conditions of that ending. *)
Lemma publication_sound w m playlistName ss out :
  publication w m playlistName ss out → publish m playlistName ss w = out.
Proof.
  intros [e Hme | Hme | userId e Hme Hcreate
          | userId body before s after e new Hme Hcreate -> Hbefore Hfails
          | userId Hme Hcreate Hanswered
          | userId created uri uris e Hme Hcreate Hanswered Htracks Hattach
          | userId created Hme Hcreate Hanswered Hattach Hurl
          | userId created url Hme Hcreate Hanswered Hattach Hurl].
  - unfold publish. apply bind_throw. by rewrite fetch_me_run, Hme.
  - unfold publish. apply bind_throw. by rewrite fetch_me_run, Hme.
  - unfold publish.
    assert (fetch_me w = (Ok userId, sent [request GetMe] w)) as H1
      by (by rewrite fetch_me_run, Hme).
    rewrite (bind_ok _ _ _ _ _ H1). apply bind_throw.
    rewrite fetch_create_run, requests_sent, <- app_assoc, sent_sent.
    change ([request GetMe] ++ [creation userId playlistName m])
      with (opening userId playlistName m).
    by rewrite Hcreate.
  - rewrite (publish_opened _ _ _ _ _ _ Hme Hcreate).
    rewrite (bind_throw _ _ _ _ _
               (resolve_tracks_stops before s after e new []
                  (sent (opening userId playlistName m) w) Hbefore
                  ltac:(by rewrite requests_sent, <- app_assoc))).
    by rewrite sent_sent.
  - rewrite (publish_searched _ _ _ _ _ _ Hme Hcreate Hanswered).
    by destruct (resolved (requests w ++ opening userId playlistName m) ss).
  - rewrite (publish_searched _ _ _ _ _ _ Hme Hcreate Hanswered), Htracks.
    apply bind_throw.
    rewrite fetch_tracks_run, requests_sent, <- !app_assoc, sent_sent, <- app_assoc.
    by rewrite Hattach.
  - rewrite (publish_searched _ _ _ _ _ _ Hme Hcreate Hanswered).
    destruct (resolved (requests w ++ opening userId playlistName m) ss)
      as [|uri uris] eqn:Htracks.
    + simpl. unfold mbind, M_bind, mret, M_ret. rewrite Hurl.
      by rewrite app_nil_r.
    + assert (fetch_tracks (Some created) (uri :: uris)
                (sent (opening userId playlistName m ++ searches ss) w)
              = (Ok tt,
                 sent (opening userId playlistName m ++ searches ss
                       ++ [request (PostTracks (cp_id created) (uri :: uris))]) w))
        as H4.
      { rewrite fetch_tracks_run, requests_sent, <- !app_assoc, sent_sent, <- app_assoc.
        by rewrite (Hattach uri uris eq_refl). }
      rewrite (bind_ok _ _ _ _ _ H4). simpl. by rewrite Hurl.
  - rewrite (publish_searched _ _ _ _ _ _ Hme Hcreate Hanswered).
    destruct (resolved (requests w ++ opening userId playlistName m) ss)
      as [|uri uris] eqn:Htracks.
    + simpl. unfold mbind, M_bind, mret, M_ret. rewrite Hurl.
      by rewrite app_nil_r.
    + assert (fetch_tracks (Some created) (uri :: uris)
                (sent (opening userId playlistName m ++ searches ss) w)
              = (Ok tt,
                 sent (opening userId playlistName m ++ searches ss
                       ++ [request (PostTracks (cp_id created) (uri :: uris))]) w))
        as H4.
      { rewrite fetch_tracks_run, requests_sent, <- !app_assoc, sent_sent, <- app_assoc.
        by rewrite (Hattach uri uris eq_refl). }
      rewrite (bind_ok _ _ _ _ _ H4). simpl. by rewrite Hurl.
Qed.

(** Whatever the catalog answers, one of the endings applies. *)
Lemma publication_total w m playlistName ss :
  ∃ out, publication w m playlistName ss out.
Proof.
  destruct (me_response catalog (requests w ++ [request GetMe]))
    as [[userId|]|e] eqn:Hme; [|eexists; by apply lookup_null
                                |eexists; by apply lookup_rejected].
  destruct (create_response catalog (requests w ++ opening userId playlistName m))
    as [body|e] eqn:Hcreate; [|eexists; by eapply creation_rejected].
  destruct (searches_outcome ss (requests w ++ opening userId playlistName m))
    as [Hanswered | (before & s & after & e & new & -> & Hbefore & Hfails)].
  2: { eexists. eapply search_fails; [done..|]. by rewrite <- app_assoc in Hfails. }
  destruct body as [created|]; [|eexists; by eapply creation_null].
  destruct (resolved (requests w ++ opening userId playlistName m) ss)
    as [|uri uris] eqn:Htracks.
  - destruct (cp_spotify created) as [url|] eqn:Hurl.
    + eexists. eapply published; [done..| |done]. intros ??. by rewrite Htracks.
    + eexists. eapply url_missing; [done..| |done]. intros ??. by rewrite Htracks.
  - destruct (tracks_response catalog
                (requests w ++ opening userId playlistName m ++ searches ss
                 ++ [request (PostTracks (cp_id created) (uri :: uris))]))
      as [[]|e] eqn:Hattach; [|eexists; by eapply attach_rejected].
    destruct (cp_spotify created) as [url|] eqn:Hurl.
    + eexists. eapply published; [done..| |done].
      intros uri' uris'. rewrite Htracks. by intros [= <- <-].
    + eexists. eapply url_missing; [done..| |done].
      intros uri' uris'. rewrite Htracks. by intros [= <- <-].
Qed.

(** What [publish] does is one of the endings, for every catalog. *)
Lemma publish_outcome m playlistName ss w :
  publication w m playlistName ss (publish m playlistName ss w).
Proof.
  destruct (publication_total w m playlistName ss) as [out Hout].
  by rewrite (publication_sound _ _ _ _ _ Hout).
Qed.

(** However it ends, a publication only sends requests. *)
Lemma publish_sends m playlistName ss w :
  ∃ new, (publish m playlistName ss w).2 = sent new w.
Proof. destruct (publish_outcome m playlistName ss w); by eexists. Qed.

(** *** What holds of a tool on every world *)

Lemma ensures_ret {A X} (part : World → X) (Q : A → Prop) x :
  Q x → ensures part Q (mret x).
Proof. by intros H w. Qed.

Lemma ensures_throw {A X} (part : World → X) (Q : A → Prop) e :
  ensures part Q (throw e).
Proof. by intros w. Qed.

Lemma ensures_bind {A B X} {part : World → X} (P : A → Prop) (Q : B → Prop)
    (c : M A) (f : A → M B) :
  ensures part P c → (∀ x, P x → ensures part Q (f x)) → ensures part Q (c ≫= f).
Proof.
  intros Hc Hf w. specialize (Hc w). unfold mbind, M_bind.
  destruct (c w) as [[x|e] w1]; simpl in *.
  - destruct Hc as [Hs Hx]. destruct (Hf x Hx w1) as [Hs' HQ].
    split; [congruence | done].
  - done.
Qed.

Lemma ensures_get_world {X} (part : World → X) : ensures part (λ _, True) get_world.
Proof. by intros w. Qed.

Lemma ensures_modify {X} (part : World → X) f :
  (∀ w, part (f w) = part w) → ensures part (λ _, True) (modify f).
Proof. intros H w. split; [apply H | done]. Qed.

(** Tools never touch the recorded step names. *)
Abbreviation quiet c := (ensures steps (λ _, True) c).

Create HintDb quiet.

#[local] Hint Resolve ensures_ret ensures_throw ensures_get_world : quiet.
#[local] Hint Extern 2 (ensures _ _ (modify _)) => (apply ensures_modify; done) : quiet.
#[local] Hint Extern 4 (ensures _ _ (_ ≫= _)) =>
  (eapply (ensures_bind (λ _, True)); [|intros ? _]) : quiet.
#[local] Hint Extern 5 (ensures _ _ (match ?x with _ => _ end)) => destruct x : quiet.

Lemma quiet_read_obj l : quiet (read_obj l).
Proof. unfold read_obj. eauto 10 with quiet. Qed.

Lemma quiet_read_array r : quiet (read_array r).
Proof. unfold read_array. eauto 10 with quiet. Qed.

#[local] Hint Resolve quiet_read_obj quiet_read_array : quiet.

Lemma quiet_push_ref r l : quiet (push_ref r l).
Proof. unfold push_ref. eauto 10 with quiet. Qed.

Lemma quiet_push_songs l more : quiet (push_songs l more).
Proof. unfold push_songs. eauto 10 with quiet. Qed.

Lemma quiet_new_playlist m : quiet (new_playlist m).
Proof. unfold new_playlist. eauto 10 with quiet. Qed.

Lemma quiet_ensurePlaylists agent : quiet (ensurePlaylists agent).
Proof. unfold ensurePlaylists. eauto 10 with quiet. Qed.

Lemma quiet_find_playlist r m : quiet (find_playlist r m).
Proof. unfold find_playlist. eauto 10 with quiet. Qed.

#[local] Hint Resolve quiet_push_ref quiet_push_songs quiet_new_playlist
  quiet_ensurePlaylists quiet_find_playlist : quiet.

Lemma quiet_getOrCreatePlaylist agent m : quiet (getOrCreatePlaylist agent m).
Proof. unfold getOrCreatePlaylist. eauto 12 with quiet. Qed.

#[local] Hint Resolve quiet_getOrCreatePlaylist : quiet.

Lemma quiet_getSongsByMood agent m : quiet (getSongsByMood agent m).
Proof. unfold getSongsByMood. eauto 12 with quiet. Qed.

Lemma quiet_fetch e : quiet (fetch e).
Proof. unfold fetch. eauto 10 with quiet. Qed.

#[local] Hint Resolve quiet_fetch : quiet.

Lemma quiet_fetch_me : quiet fetch_me.
Proof. unfold fetch_me. eauto 10 with quiet. Qed.

Lemma quiet_fetch_create userId name description :
  quiet (fetch_create userId name description).
Proof. unfold fetch_create. eauto 10 with quiet. Qed.

Lemma quiet_fetch_search query : quiet (fetch_search query).
Proof. unfold fetch_search. eauto 10 with quiet. Qed.

Lemma quiet_fetch_tracks playlistId uris : quiet (fetch_tracks playlistId uris).
Proof. unfold fetch_tracks. eauto 10 with quiet. Qed.

#[local] Hint Resolve quiet_fetch_me quiet_fetch_create quiet_fetch_search
  quiet_fetch_tracks : quiet.

Lemma quiet_resolve_tracks ss : ∀ trackUris, quiet (resolve_tracks ss trackUris).
Proof.
  induction ss as [|song rest IH]; intros trackUris; simpl; eauto 10 with quiet.
Qed.

#[local] Hint Resolve quiet_resolve_tracks : quiet.

(** *** addSong and confirmAddRecommendedSongs *)

Lemma addSong_run a t ar m w :
  wf w →
  ∃ l w',
    addSong (Some a) t ar m w
    = (Ok ("Added " +:+ quoted t +:+ by_artist {| title := t; artist := ar |}
           +:+ " to your " +:+ quoted m +:+ " playlist."), w')
    ∧ appended a m [{| title := t; artist := ar |}] w l w'.
Proof. intros Hwf. unfold addSong. by apply append_run. Qed.

Lemma confirm_run a recommendedSongs m w :
  wf w →
  ∃ l w',
    confirmAddRecommendedSongs (Some a) (Confirmation true recommendedSongs m) w
    = (Ok ("Added " +:+ pretty (length recommendedSongs) +:+ " songs to your "
           +:+ quoted m +:+ " playlist."), w')
    ∧ appended a m recommendedSongs w l w'.
Proof. intros Hwf. unfold confirmAddRecommendedSongs. by apply append_run. Qed.


(** *** The store invariant *)

Lemma untouched_fetch e : ensures local_store (λ _, True) (fetch e).
Proof. unfold fetch. eauto 10 with quiet. Qed.

#[local] Hint Resolve untouched_fetch : quiet.

Lemma untouched_fetch_me : ensures local_store (λ _, True) fetch_me.
Proof. unfold fetch_me. eauto 10 with quiet. Qed.

Lemma untouched_fetch_create userId name description :
  ensures local_store (λ _, True) (fetch_create userId name description).
Proof. unfold fetch_create. eauto 10 with quiet. Qed.

Lemma untouched_fetch_search query :
  ensures local_store (λ _, True) (fetch_search query).
Proof. unfold fetch_search. eauto 10 with quiet. Qed.

Lemma untouched_fetch_tracks playlistId uris :
  ensures local_store (λ _, True) (fetch_tracks playlistId uris).
Proof. unfold fetch_tracks. eauto 10 with quiet. Qed.

#[local] Hint Resolve untouched_fetch_me untouched_fetch_create
  untouched_fetch_search untouched_fetch_tracks : quiet.

Lemma untouched_resolve_tracks ss :
  ∀ trackUris, ensures local_store (λ _, True) (resolve_tracks ss trackUris).
Proof.
  induction ss as [|song rest IH]; intros trackUris; simpl; eauto 10 with quiet.
Qed.

#[local] Hint Resolve untouched_resolve_tracks : quiet.

(** Publishing, whether it succeeds or a call is rejected half-way, leaves
    the playlist store as it was. *)
Lemma publish_keeps_store m playlistName ss w :
  local_store (publish m playlistName ss w).2 = local_store w.
Proof.
  assert (ensures local_store (λ _, True) (publish m playlistName ss)) as H
    by (unfold publish; eauto 15 with quiet).
  apply H.
Qed.

Lemma invariant_local_store w w' :
  local_store w' = local_store w → invariant w → invariant w'.
Proof.
  unfold local_store, invariant, wf, unique_moods, mood_keys.
  intros [= -> -> ->]. done.
Qed.

Lemma invariant_initial : invariant initial_world.
Proof.
  split; [exact wf_initial|]. apply map_Forall_singleton. constructor.
Qed.

Lemma invariant_bound a w : invariant w → invariant (bound a w).
Proof.
  intros [Hwf Huniq]. split; [by apply wf_bound|].
  unfold unique_moods, mood_keys. by rewrite objs_bound, arrays_bound.
Qed.

Lemma invariant_appended a m more w l w' :
  appended a m more w l w' → invariant w → invariant w'.
Proof.
  intros Happ [Hwf Huniq]. split.
  - apply (app_wf _ _ _ _ _ _ Happ).
  - by apply (appended_unique Happ).
Qed.

(** X1. Every reachable world is well formed and holds at most one
    playlist per case-insensitive mood: the tools keep the store invariant,
    whether they return or throw and whatever the catalog answers. *)
Theorem reachable_invariant w : reachable w → invariant w.
Proof.
  induction 1 as [ | w agent t ar m _ IH | w agent m _ IH | w agent m _ IH
                   | w agent input _ IH | w agent m playlistName _ IH ].
  - exact invariant_initial.
  - destruct agent as [a|]; [|done].
    destruct (addSong_run a t ar m w (proj1 IH)) as (l & w' & -> & Happ).
    by apply (invariant_appended _ _ _ _ _ _ Happ).
  - destruct agent as [a|]; [|done].
    destruct (stored w (playlists_of w a) m) as [p|] eqn:Hst.
    + rewrite (getSongsByMood_found _ _ _ _ (proj1 IH) Hst). by apply invariant_bound.
    + rewrite (getSongsByMood_absent _ _ _ (proj1 IH) Hst). by apply invariant_bound.
  - destruct agent as [a|]; [|done].
    destruct (stored w (playlists_of w a) m) as [p|] eqn:Hst.
    + destruct (decide (songs p = [])) as [Hempty|Hne].
      * rewrite recommendSongs_nothing; [by apply invariant_bound | apply IH |].
        right. by exists p.
      * destruct (recommendSongs_found a m p w (proj1 IH) Hst Hne) as (l & _ & _ & ->).
        by apply invariant_bound.
    + rewrite recommendSongs_nothing; [by apply invariant_bound | apply IH | by left].
  - destruct input as [[|] recommendedSongs m | text]; [|done..].
    destruct agent as [a|]; [|done].
    destruct (confirm_run a recommendedSongs m w (proj1 IH)) as (l & w' & -> & Happ).
    by apply (invariant_appended _ _ _ _ _ _ Happ).
  - destruct agent as [a|]; [|done].
    destruct (stored w (playlists_of w a) m) as [p|] eqn:Hst.
    + destruct (decide (songs p = [])) as [Hempty|Hne].
      * rewrite createSpotifyPlaylist_nothing; [by apply invariant_bound | apply IH |].
        right. by exists p.
      * rewrite (createSpotifyPlaylist_found _ _ _ _ _ (proj1 IH) Hst Hne).
        eapply invariant_local_store; [apply publish_keeps_store|].
        by apply invariant_bound.
    + rewrite createSpotifyPlaylist_nothing;
        [by apply invariant_bound | apply IH | by left].
Qed.

(** *** Lemmas for the claims *)

(** [getOrCreatePlaylist] leaves every existing object as it is. *)
Lemma getOrCreatePlaylist_keeps a m w l w' l0 p0 :
  appended a m [] w l w' → objs w !! l0 = Some p0 → objs w' !! l0 = Some p0.
Proof.
  intros Happ H0. destruct (decide (l0 = l)) as [->|Hne].
  - rewrite (app_obj _ _ _ _ _ _ Happ).
    destruct (find w (playlists_of w a) m) as [l1|] eqn:Hfind.
    + destruct (app_found _ _ _ _ _ _ Happ _ Hfind) as [-> _].
      unfold stored_songs, stored. rewrite Hfind. simpl. rewrite H0. simpl.
      rewrite app_nil_r. by destruct p0.
    + destruct (app_created _ _ _ _ _ _ Happ Hfind) as [Hnone _]. congruence.
  - by rewrite (app_objs _ _ _ _ _ _ Happ _ Hne).
Qed.

Lemma getOrCreate_all_run calls :
  ∀ w, wf w → unique_moods w →
  ∃ ls w',
    getOrCreate_all calls w = (Ok ls, w')
    ∧ wf w' ∧ unique_moods w'
    ∧ ∀ l0 p0, objs w !! l0 = Some p0 → objs w' !! l0 = Some p0.
Proof.
  induction calls as [|[a m] rest IH]; intros w Hwf Huniq.
  - by exists [], w.
  - destruct (getOrCreatePlaylist_run a m w Hwf) as (l & w1 & Hrun & Happ).
    destruct (IH w1 (app_wf _ _ _ _ _ _ Happ) (appended_unique Happ Hwf Huniq))
      as (ls & w' & Hrest & Hwf' & Huniq' & Hkeep).
    exists (l :: ls), w'. split_and!; [|done..|].
    + unfold getOrCreate_all in *. simpl.
      rewrite (bind_ok _ _ _ _ _ Hrun), (bind_ok _ _ _ _ _ Hrest). done.
    + intros l0 p0 H0. by eapply Hkeep, getOrCreatePlaylist_keeps.
Qed.

Lemma append_assoc (s1 s2 s3 : string) : (s1 +:+ s2) +:+ s3 = s1 +:+ s2 +:+ s3.
Proof.
  induction s1 as [|c s1 IH]; [done|].
  change (String c ((s1 +:+ s2) +:+ s3) = String c (s1 +:+ s2 +:+ s3)).
  by f_equal.
Qed.

Lemma contains_append_r before needle text :
  contains needle text → contains needle (before +:+ text).
Proof.
  intros (b & a & ->). exists (before +:+ b), a. by rewrite append_assoc.
Qed.

Lemma contains_here needle after : contains needle (needle +:+ after).
Proof. by exists "", after. Qed.

Lemma contains_inside before needle after rest :
  contains needle ((before +:+ needle +:+ after) +:+ rest).
Proof. exists before, (after +:+ rest). by rewrite !append_assoc. Qed.

Lemma prompt_lists_songs m ss :
  contains (join newline (prompt_line <$> ss)) (recommend_prompt m ss).
Proof.
  unfold recommend_prompt. do 6 apply contains_append_r. apply contains_here.
Qed.

Lemma prompt_asks_for_three m ss :
  contains "Generate 3 similar song recommendations" (recommend_prompt m ss).
Proof.
  unfold recommend_prompt. do 9 apply contains_append_r.
  apply (contains_inside "      " "Generate 3 similar song recommendations"
           " and ask the user: ").
Qed.

Lemma prompt_asks_yes_or_no m ss :
  contains "Reply yes or no." (recommend_prompt m ss).
Proof.
  unfold recommend_prompt. do 15 apply contains_append_r.
  apply (contains_inside " playlist? " "Reply yes or no." "").
Qed.

(** The search query by cases on the artist: an artist that is the empty
    string is falsy and is left out, like a missing one. *)
Lemma search_query_cases s :
  (∀ ar, artist s = Some ar → ar ≠ "" → search_query s = title s +:+ " " +:+ ar)
  ∧ (artist s = None ∨ artist s = Some "" → search_query s = title s).
Proof.
  unfold search_query, artist_text. split.
  - intros ar -> Hne. by destruct ar.
  - by intros [-> | ->].
Qed.

(** *** The workflow *)

Lemma step_do_run {A} name (c : M A) w :
  step_do name c w = c (set_steps (λ names, names ++ [name]) w).
Proof. done. Qed.

Lemma confirm_answer_truthy agent input :
  ensures steps (λ answer, truthy_string answer = true)
    (confirmAddRecommendedSongs agent input).
Proof.
  destruct input as [[|] recommendedSongs m | text]; simpl.
  - eapply (ensures_bind (λ _, True)); [auto with quiet|]. intros playlist _.
    eapply (ensures_bind (λ _, True)); [auto with quiet|]. intros _ _.
    by apply ensures_ret.
  - by apply ensures_ret.
  - by apply ensures_ret.
Qed.

Lemma publish_answer m playlistName ss :
  ensures steps (λ answer, answer ≠ canceled) (publish m playlistName ss).
Proof.
  unfold publish.
  eapply (ensures_bind (λ _, True)); [auto with quiet|]. intros userId _.
  eapply (ensures_bind (λ _, True)); [auto with quiet|]. intros created _.
  eapply (ensures_bind (λ _, True)); [auto with quiet|]. intros trackUris _.
  eapply (ensures_bind (λ _, True)).
  { destruct trackUris; auto with quiet. }
  intros _ _. destruct (created ≫= cp_spotify) as [url|].
  - by apply ensures_ret.
  - apply ensures_throw.
Qed.

Lemma createSpotifyPlaylist_answer agent m playlistName :
  ensures steps (λ answer, answer ≠ canceled) (createSpotifyPlaylist agent m playlistName).
Proof.
  unfold createSpotifyPlaylist.
  eapply (ensures_bind (λ _, True)); [auto with quiet|]. intros playlists _.
  eapply (ensures_bind (λ _, True)); [auto with quiet|]. intros [l|] _.
  - eapply (ensures_bind (λ _, True)); [auto with quiet|]. intros playlist _.
    destruct (songs playlist).
    + by apply ensures_ret.
    + apply publish_answer.
  - by apply ensures_ret.
Qed.

(** Every run of the workflow ends that way, whatever argument object the
    Confirm step is given: a Confirm step that returns is always followed by
    Publish. *)
Lemma run_with_outcome confirm_input agent m playlistName w :
  run_outcome w (run_with confirm_input agent m playlistName w).
Proof.
  unfold run_with. unfold mbind at 1, M_bind at 1. rewrite step_do_run.
  set (w0 := set_steps (λ names, names ++ ["recommend songs"]) w).
  destruct (quiet_getSongsByMood agent m w0) as [Hs0 _].
  destruct (getSongsByMood agent m w0) as [[recommendedSongs|e] w1];
    simpl in Hs0; [|by split; [|left]].
  destruct (truthy_string recommendedSongs); simpl; [|by split; [|left]].
  unfold mbind at 1, M_bind at 1. rewrite step_do_run.
  set (w1' := set_steps (λ names, names ++ ["confirm songs"]) w1).
  destruct (confirm_answer_truthy agent (confirm_input recommendedSongs) w1')
    as [Hs1 Htruthy].
  assert (steps w1' = steps w ++ ["recommend songs"; "confirm songs"]) as Hs1'
    by (simpl; rewrite Hs0, <- app_assoc; done).
  destruct (confirmAddRecommendedSongs agent (confirm_input recommendedSongs) w1')
    as [[confirmed|e] w2]; cbn [fst snd] in Hs1, Htruthy.
  2: { split; [done|]. right. left. cbn [fst snd]. rewrite Hs1, Hs1'. eauto. }
  rewrite Htruthy. simpl. rewrite step_do_run.
  set (w2' := set_steps (λ names, names ++ ["create Spotify playlist"]) w2).
  destruct (createSpotifyPlaylist_answer agent m playlistName w2') as [Hs2 Hanswer].
  assert (steps w2' = steps w ++ ["recommend songs"; "confirm songs";
                                   "create Spotify playlist"]) as Hs2'
    by (simpl; rewrite Hs1, Hs1', <- app_assoc; done).
  rewrite Hs2' in Hs2.
  destruct (createSpotifyPlaylist agent m playlistName w2') as [[answer|e] w3];
    cbn [fst snd] in Hanswer, Hs2.
  - split; [simpl; congruence|]. by right; right.
  - split; [done|]. by right; right.
Qed.

(** The double quotes that [quoted] puts around a text. *)
Lemma quoted_text s :
  quoted s = String "034"%char (s +:+ String "034"%char EmptyString).
Proof. done. Qed.


(** ** The claims *)

(** C3. Two distinct agents that carry no [playlists] property are both
    bound to the global array: after [addSong] ran for the first,
    [ensurePlaylists] hands the second the same array and [getSongsByMood]
    for the second lists the song just added, after those the global array
    already held for that mood. *)
Theorem global_store_shared_between_agents a1 a2 t ar m w :
  wf w → a1 ≠ a2 → agents w !! a1 = None → agents w !! a2 = None →
  ∃ msg w1,
    addSong (Some a1) t ar m w = (Ok msg, w1)
    ∧ agents w1 !! a1 = Some globalPlaylists
    ∧ (ensurePlaylists (Some a2) w1).1 = Ok globalPlaylists
    ∧ (getSongsByMood (Some a2) m w1).1
      = Ok (join ", " (show_song <$> stored_songs w globalPlaylists m
                                      ++ [{| title := t; artist := ar |}])).
Proof.
  intros Hwf Hne H1 H2.
  destruct (addSong_run a1 t ar m w Hwf) as (l & w1 & Hrun & Happ).
  assert (playlists_of w a1 = globalPlaylists) as Hr1
    by (unfold playlists_of; by rewrite H1).
  assert (playlists_of w1 a2 = globalPlaylists) as Hr2
    by (rewrite (appended_playlists_of Happ); unfold playlists_of; by rewrite H2).
  eexists _, w1. split_and!.
  - exact Hrun.
  - rewrite (app_agents _ _ _ _ _ _ Happ), Hr1. apply lookup_insert_eq.
  - by rewrite ensurePlaylists_run, Hr2.
  - pose proof (appended_stored Happ m eq_refl) as Hst. rewrite Hr1 in Hst.
    rewrite <- Hr2 in Hst at 1.
    by rewrite (getSongsByMood_found _ _ _ _ (app_wf _ _ _ _ _ _ Happ) Hst).
Qed.

(** C4. [getOrCreatePlaylist] called for two moods that are equal up to
    case returns the same playlist object both times, and the second call
    changes nothing.  A playlist it creates carries the mood string of the
    call that created it, and no existing object is altered, so the
    first-seen casing stays.  A store that holds at most one playlist per
    case-insensitive mood still does so after any sequence of calls. *)
Theorem findOrCreate_case_insensitive w :
  wf w →
  (∀ a m1 m2, toLowerCase m1 = toLowerCase m2 →
     ∃ l w1 p,
       getOrCreatePlaylist (Some a) m1 w = (Ok l, w1)
       ∧ getOrCreatePlaylist (Some a) m2 w1 = (Ok l, w1)
       ∧ objs w1 !! l = Some p
       ∧ (stored w (playlists_of w a) m1 = None → mood p = m1)
       ∧ (∀ l0 p0, objs w !! l0 = Some p0 → objs w1 !! l0 = Some p0))
  ∧ (unique_moods w →
     ∀ calls,
       ∃ ls w',
         getOrCreate_all calls w = (Ok ls, w')
         ∧ unique_moods w'
         ∧ ∀ l0 p0, objs w !! l0 = Some p0 → objs w' !! l0 = Some p0).
Proof.
  intros Hwf. split.
  - intros a m1 m2 Hm.
    destruct (getOrCreatePlaylist_run a m1 w Hwf) as (l & w1 & Hrun & Happ).
    eexists l, w1, _. split_and!.
    + exact Hrun.
    + assert (find w1 (playlists_of w1 a) m2 = Some l) as Hfind.
      { rewrite (appended_playlists_of Happ).
        by apply (app_find _ _ _ _ _ _ Happ). }
      rewrite (getOrCreatePlaylist_found _ _ _ _ (app_wf _ _ _ _ _ _ Happ) Hfind).
      f_equal. unfold bound.
      by rewrite (app_agents _ _ _ _ _ _ Happ), lookup_insert_eq.
    + apply (app_obj _ _ _ _ _ _ Happ).
    + simpl. by intros ->.
    + intros l0 p0. exact (getOrCreatePlaylist_keeps _ _ _ _ _ l0 p0 Happ).
  - intros Huniq calls.
    destruct (getOrCreate_all_run calls w Hwf Huniq) as (ls & w' & ? & ? & ? & ?).
    by exists ls, w'.
Qed.

(** C5. With [confirm] false the tool answers that no songs were added and
    the world it returns is the world it was given: no agent is bound, no
    playlist is created, no song sequence changes. *)
Theorem declined_confirmation_changes_nothing agent recommendedSongs m w :
  confirmAddRecommendedSongs agent (Confirmation false recommendedSongs m) w
  = (Ok "No songs were added.", w).
Proof. done. Qed.

(** C6. With [confirm] true the tool returns the acknowledgement carrying
    the number of recommended songs, and afterwards the playlist found for
    the mood holds the songs it held before (none if it was absent) followed
    by all of [recommendedSongs] in their order; a playlist that was absent
    is a new object pushed at the end of the agent's array, with the mood as
    given; no other object changes.  The empty list is handled like any
    other. *)
Theorem confirmed_songs_are_appended a recommendedSongs m w :
  wf w →
  ∃ l w',
    confirmAddRecommendedSongs (Some a) (Confirmation true recommendedSongs m) w
    = (Ok ("Added " +:+ pretty (length recommendedSongs) +:+ " songs to your "
           +:+ quoted m +:+ " playlist."), w')
    ∧ find w' (playlists_of w a) m = Some l
    ∧ objs w' !! l
      = Some {| mood := default m (mood <$> stored w (playlists_of w a) m);
                songs := stored_songs w (playlists_of w a) m ++ recommendedSongs |}
    ∧ (stored w (playlists_of w a) m = None →
       objs w !! l = None
       ∧ arrays w' !! playlists_of w a
         = (λ refs, refs ++ [l]) <$> arrays w !! playlists_of w a)
    ∧ (∀ l0, l0 ≠ l → objs w' !! l0 = objs w !! l0)
    ∧ wf w'.
Proof.
  intros Hwf.
  destruct (confirm_run a recommendedSongs m w Hwf) as (l & w' & Hrun & Happ).
  exists l, w'. split_and!.
  - exact Hrun.
  - by apply (app_find _ _ _ _ _ _ Happ).
  - apply (app_obj _ _ _ _ _ _ Happ).
  - intros Hnone. apply (stored_None _ _ _ Hwf) in Hnone.
    destruct (app_created _ _ _ _ _ _ Happ Hnone) as [Hnew ->].
    split; [done|]. rewrite lookup_insert_eq.
    by destruct (wf_playlists_of a w Hwf) as [refs ->].
  - apply (app_objs _ _ _ _ _ _ Happ).
  - apply (app_wf _ _ _ _ _ _ Happ).
Qed.

(** C8. When the playlist of the mood is absent or holds no songs,
    [createSpotifyPlaylist] returns the no-songs-found message and the
    request log is as before: the catalog is not contacted, whatever the
    catalog.  The stored objects and arrays are untouched as well. *)
Theorem nothing_to_publish a m playlistName w :
  wf w → nothing_stored w (playlists_of w a) m →
  ∃ w',
    createSpotifyPlaylist (Some a) m playlistName w
    = (Ok ("No songs found in your " +:+ quoted m +:+ " playlist."), w')
    ∧ requests w' = requests w
    ∧ objs w' = objs w ∧ arrays w' = arrays w.
Proof.
  intros Hwf Hnothing. exists (bound a w). split_and!.
  - by apply createSpotifyPlaylist_nothing.
  - apply requests_bound.
  - apply objs_bound.
  - apply arrays_bound.
Qed.

(** C9. When the playlist of the mood is absent or holds no songs,
    [recommendSongs] returns the message that there are no songs in this
    mood yet, and no prompt object.  When it holds songs, the tool returns
    the prompt object: it refers to the stored playlist, hence to all its
    songs in order, and its prompt lists every song in stored order, asks
    for 3 similar recommendations and asks the user to reply yes or no. *)
Theorem recommendSongs_outcomes a m w :
  wf w →
  (nothing_stored w (playlists_of w a) m →
   (recommendSongs (Some a) m w).1
   = Ok (Message ("You don't have any songs in your " +:+ quoted m
                  +:+ " playlist yet.")))
  ∧ (∀ p, stored w (playlists_of w a) m = Some p → songs p ≠ [] →
     ∃ l prompt,
       (recommendSongs (Some a) m w).1 = Ok (LlmPrompt prompt m l)
       ∧ objs (recommendSongs (Some a) m w).2 !! l = Some p
       ∧ contains (join newline (prompt_line <$> songs p)) prompt
       ∧ contains "Generate 3 similar song recommendations" prompt
       ∧ contains "Reply yes or no." prompt).
Proof.
  intros Hwf. split.
  - intros Hnothing. by rewrite recommendSongs_nothing.
  - intros p Hst Hne.
    destruct (recommendSongs_found a m p w Hwf Hst Hne) as (l & _ & Hp & ->).
    exists l, (recommend_prompt m (songs p)). split_and!.
    + done.
    + simpl. by rewrite objs_bound.
    + apply prompt_lists_songs.
    + apply prompt_asks_for_three.
    + apply prompt_asks_yes_or_no.
Qed.


(** C7, as amended.  For a stored playlist with at least one song, when
    the account lookup and the creation are answered with bodies that are
    not [null], every query can be encoded (it holds no lone surrogate),
    every search is answered with a body whose items can be read, and the
    batch call, if one is made, is not rejected, the requests of
    [createSpotifyPlaylist] are, in this order: the account lookup, the
    creation of the private remote playlist, one search per stored song in
    stored order, and, only when some song resolved, a single call that
    attaches the resolved tracks in resolution order.  The query is the
    title, a space and the artist when the artist is present and is not the
    empty string, and the title alone otherwise.  A song resolves to the
    first match of its own search and is skipped when the search has no
    match; so for two songs of which only the first resolves, exactly that
    one track is attached.  The tool then returns the message with the URL
    of the playlist; when the answer to the creation carries no
    [external_urls] it throws a [TypeError] instead, after the same
    requests.  Objects and arrays of the local store are untouched. *)
Theorem publish_attaches_resolved_tracks a m playlistName p userId created w :
  wf w → stored w (playlists_of w a) m = Some p → songs p ≠ [] →
  me_response catalog (requests w ++ [request GetMe]) = Ok (Some userId) →
  create_response catalog (requests w ++ opening userId playlistName m)
  = Ok (Some created) →
  answered (requests w ++ opening userId playlistName m) (songs p) →
  (∀ uri uris,
     resolved (requests w ++ opening userId playlistName m) (songs p) = uri :: uris →
     tracks_response catalog
       (requests w ++ opening userId playlistName m ++ searches (songs p)
        ++ [request (PostTracks (cp_id created) (uri :: uris))])
     = Ok tt) →
  createSpotifyPlaylist (Some a) m playlistName w
  = (match cp_spotify created with
     | Some url =>
         Ok ("Spotify playlist " +:+ quoted playlistName
             +:+ " created! Listen here: " +:+ url)
     | None => Throw TypeError
     end,
     sent ([request GetMe;
            request (PostPlaylist userId playlistName
                       ("Playlist generated from your " +:+ quoted m +:+ " songs")
                       false)]
           ++ ((λ s, request
                       (GetSearch
                          match artist s with
                          | Some (String c ar) => title s +:+ " " +:+ String c ar
                          | _ => title s
                          end))
               <$> songs p)
           ++ attach (cp_id created)
                (resolved (requests w ++ opening userId playlistName m) (songs p)))
       (bound a w))
  ∧ (∀ s1 s2 uri,
       songs p = [s1; s2] →
       resolutions (requests w ++ opening userId playlistName m) [s1; s2]
       = [Some uri; None] →
       attach (cp_id created)
         (resolved (requests w ++ opening userId playlistName m) (songs p))
       = [request (PostTracks (cp_id created) [uri])]).
Proof.
  intros Hwf Hst Hne Hme Hcreate Hanswered Hattach. split.
  - rewrite (createSpotifyPlaylist_found _ _ _ _ _ Hwf Hst Hne).
    rewrite <- (requests_bound a w) in Hme, Hcreate, Hanswered, Hattach.
    rewrite <- (requests_bound a w).
    destruct (cp_spotify created) as [url|] eqn:Hurl.
    + by apply publication_sound, (published _ _ _ _ userId created url).
    + by apply publication_sound, (url_missing _ _ _ _ userId created).
  - intros s1 s2 uri -> Hres. unfold resolved. by rewrite Hres.
Qed.

(** ** Further properties of the tools

    *** What each tool leaves alone *)

(** Parts of a world that do not see a given kind of update. *)
Definition ignores_agents {X} (part : World → X) : Prop :=
  ∀ f w, part (set_agents f w) = part w.

Definition ignores_playlists {X} (part : World → X) : Prop :=
  (∀ f w, part (set_objs f w) = part w) ∧ (∀ f w, part (set_arrays f w) = part w).

Definition ignores_requests {X} (part : World → X) : Prop :=
  ∀ f w, part (set_requests f w) = part w.

Definition ignores_steps {X} (part : World → X) : Prop :=
  ∀ f w, part (set_steps f w) = part w.

(** The playlist objects and the arrays that hold them. *)
Definition playlists_part (w : World) : gmap loc Playlist * gmap loc (list loc) :=
  (objs w, arrays w).

Section Kept.

Context {X : Type} (part : World → X).

Lemma kept_read_obj l : ensures part (λ _, True) (read_obj l).
Proof. unfold read_obj. eauto 10 with quiet. Qed.

Lemma kept_read_array r : ensures part (λ _, True) (read_array r).
Proof. unfold read_array. eauto 10 with quiet. Qed.

Lemma kept_find_playlist r m : ensures part (λ _, True) (find_playlist r m).
Proof.
  unfold find_playlist.
  eapply (ensures_bind (λ _, True)); [apply kept_read_array|]. intros refs _.
  eauto 10 with quiet.
Qed.

Lemma kept_ensurePlaylists agent :
  ignores_agents part → ensures part (λ _, True) (ensurePlaylists agent).
Proof.
  intros Hag. destruct agent as [a|]; simpl; [|apply ensures_throw].
  eapply (ensures_bind (λ _, True)); [apply ensures_get_world|]. intros w _.
  destruct (agents w !! a); [by apply ensures_ret|].
  eapply (ensures_bind (λ _, True)); [|intros; by apply ensures_ret].
  apply ensures_modify. intros w'. apply Hag.
Qed.

Lemma kept_getOrCreatePlaylist agent m :
  ignores_agents part → ignores_playlists part →
  ensures part (λ _, True) (getOrCreatePlaylist agent m).
Proof.
  intros Hag [Hobjs Harrays]. unfold getOrCreatePlaylist.
  eapply (ensures_bind (λ _, True)); [by apply kept_ensurePlaylists|]. intros r _.
  eapply (ensures_bind (λ _, True)); [apply kept_find_playlist|]. intros [l|] _.
  { by apply ensures_ret. }
  eapply (ensures_bind (λ _, True)).
  { unfold new_playlist.
    eapply (ensures_bind (λ _, True)); [apply ensures_get_world|]. intros w _.
    eapply (ensures_bind (λ _, True)); [|intros; by apply ensures_ret].
    apply ensures_modify. intros w'. apply Hobjs. }
  intros l _. eapply (ensures_bind (λ _, True)); [|intros; by apply ensures_ret].
  unfold push_ref.
  eapply (ensures_bind (λ _, True)); [apply kept_read_array|]. intros refs _.
  apply ensures_modify. intros w'. apply Harrays.
Qed.

Lemma kept_push_songs l more :
  ignores_playlists part → ensures part (λ _, True) (push_songs l more).
Proof.
  intros [Hobjs _]. unfold push_songs.
  eapply (ensures_bind (λ _, True)); [apply kept_read_obj|]. intros p _.
  apply ensures_modify. intros w'. apply Hobjs.
Qed.

Lemma kept_addSong agent t ar m :
  ignores_agents part → ignores_playlists part →
  ensures part (λ _, True) (addSong agent t ar m).
Proof.
  intros Hag Hpl. unfold addSong.
  eapply (ensures_bind (λ _, True)); [by apply kept_getOrCreatePlaylist|]. intros l _.
  eapply (ensures_bind (λ _, True)); [by apply kept_push_songs|]. intros _ _.
  by apply ensures_ret.
Qed.

Lemma kept_confirmAddRecommendedSongs agent input :
  ignores_agents part → ignores_playlists part →
  ensures part (λ _, True) (confirmAddRecommendedSongs agent input).
Proof.
  intros Hag Hpl. destruct input as [[|] recommendedSongs m | text]; simpl;
    [|by apply ensures_ret..].
  eapply (ensures_bind (λ _, True)); [by apply kept_getOrCreatePlaylist|]. intros l _.
  eapply (ensures_bind (λ _, True)); [by apply kept_push_songs|]. intros _ _.
  by apply ensures_ret.
Qed.

Lemma kept_getSongsByMood agent m :
  ignores_agents part → ensures part (λ _, True) (getSongsByMood agent m).
Proof.
  intros Hag. unfold getSongsByMood.
  eapply (ensures_bind (λ _, True)); [by apply kept_ensurePlaylists|]. intros r _.
  eapply (ensures_bind (λ _, True)); [apply kept_find_playlist|]. intros [l|] _.
  - eapply (ensures_bind (λ _, True)); [apply kept_read_obj|]. intros p _.
    by apply ensures_ret.
  - apply ensures_throw.
Qed.

Lemma kept_recommendSongs agent m :
  ignores_agents part → ensures part (λ _, True) (recommendSongs agent m).
Proof.
  intros Hag. unfold recommendSongs.
  eapply (ensures_bind (λ _, True)); [by apply kept_ensurePlaylists|]. intros r _.
  eapply (ensures_bind (λ _, True)); [apply kept_find_playlist|]. intros [l|] _.
  - eapply (ensures_bind (λ _, True)); [apply kept_read_obj|]. intros p _.
    destruct (songs p); by apply ensures_ret.
  - by apply ensures_ret.
Qed.

Lemma kept_fetch e : ignores_requests part → ensures part (λ _, True) (fetch e).
Proof.
  intros Hreq. unfold fetch.
  eapply (ensures_bind (λ _, True)).
  { apply ensures_modify. intros w'. apply Hreq. }
  intros _ _. eapply (ensures_bind (λ _, True)); [apply ensures_get_world|].
  intros; by apply ensures_ret.
Qed.

Lemma kept_fetch_search query :
  ignores_requests part → ensures part (λ _, True) (fetch_search query).
Proof.
  intros Hreq. unfold fetch_search.
  destruct (lone_surrogate query); [apply ensures_throw|].
  eapply (ensures_bind (λ _, True)); [by apply kept_fetch|]. intros log _.
  destruct (search_response catalog log) as [[items|]|e];
    [by apply ensures_ret | apply ensures_throw..].
Qed.

Lemma kept_resolve_tracks ss :
  ignores_requests part →
  ∀ trackUris, ensures part (λ _, True) (resolve_tracks ss trackUris).
Proof.
  intros Hreq. induction ss as [|song rest IH]; intros trackUris; simpl.
  - by apply ensures_ret.
  - eapply (ensures_bind (λ _, True)); [by apply kept_fetch_search|]. intros items _.
    apply IH.
Qed.

Lemma kept_publish m playlistName ss :
  ignores_requests part → ensures part (λ _, True) (publish m playlistName ss).
Proof.
  intros Hreq. unfold publish, fetch_me, fetch_create, fetch_tracks.
  eapply (ensures_bind (λ _, True)).
  { eapply (ensures_bind (λ _, True)); [by apply kept_fetch|]. intros log _.
    destruct (me_response catalog log) as [[id|]|e];
      [by apply ensures_ret | apply ensures_throw..]. }
  intros userId _. eapply (ensures_bind (λ _, True)).
  { eapply (ensures_bind (λ _, True)); [by apply kept_fetch|]. intros log _.
    destruct (create_response catalog log); [by apply ensures_ret | apply ensures_throw]. }
  intros body _.
  eapply (ensures_bind (λ _, True)); [by apply kept_resolve_tracks|]. intros trackUris _.
  eapply (ensures_bind (λ _, True)).
  { destruct trackUris; [by apply ensures_ret|].
    destruct body as [created|]; [|apply ensures_throw].
    eapply (ensures_bind (λ _, True)); [by apply kept_fetch|]. intros log _.
    destruct (tracks_response catalog log); [by apply ensures_ret | apply ensures_throw]. }
  intros _ _.
  destruct (body ≫= cp_spotify); [by apply ensures_ret | apply ensures_throw].
Qed.

Lemma kept_createSpotifyPlaylist agent m playlistName :
  ignores_agents part → ignores_requests part →
  ensures part (λ _, True) (createSpotifyPlaylist agent m playlistName).
Proof.
  intros Hag Hreq. unfold createSpotifyPlaylist.
  eapply (ensures_bind (λ _, True)); [by apply kept_ensurePlaylists|]. intros r _.
  eapply (ensures_bind (λ _, True)); [apply kept_find_playlist|]. intros [l|] _.
  - eapply (ensures_bind (λ _, True)); [apply kept_read_obj|]. intros p _.
    destruct (songs p); [by apply ensures_ret | by apply kept_publish].
  - by apply ensures_ret.
Qed.

Lemma kept_run agent m playlistName :
  ignores_agents part → ignores_requests part → ignores_steps part →
  ensures part (λ _, True) (run agent m playlistName).
Proof.
  intros Hag Hreq Hsteps. unfold run, run_with, step_do.
  assert (∀ name, ensures part (λ _, True)
                    (modify (set_steps (λ names, names ++ [name])))) as Hstep
    by (intros name; apply ensures_modify; intros w; apply Hsteps).
  eapply (ensures_bind (λ _, True)).
  { eapply (ensures_bind (λ _, True)); [apply Hstep|]. intros _ _.
    by apply kept_getSongsByMood. }
  intros recommendedSongs _. destruct (negb (truthy_string recommendedSongs));
    [by apply ensures_ret|].
  eapply (ensures_bind (λ _, True)).
  { eapply (ensures_bind (λ _, True)); [apply Hstep|]. intros _ _.
    by apply ensures_ret. }
  intros confirmed _. destruct (negb (truthy_string confirmed));
    [by apply ensures_ret|].
  eapply (ensures_bind (λ _, True)); [apply Hstep|]. intros _ _.
  by apply kept_createSpotifyPlaylist.
Qed.

End Kept.

(** X2. Only [createSpotifyPlaylist] contacts the catalog: on every world,
    for every agent and whether they return or throw, [addSong],
    [getSongsByMood], [recommendSongs] and [confirmAddRecommendedSongs]
    leave the request log as it is. *)
Theorem only_the_publisher_contacts_the_catalog agent t ar m input w :
  requests (addSong agent t ar m w).2 = requests w
  ∧ requests (getSongsByMood agent m w).2 = requests w
  ∧ requests (recommendSongs agent m w).2 = requests w
  ∧ requests (confirmAddRecommendedSongs agent input w).2 = requests w.
Proof.
  split_and!.
  - by apply (kept_addSong requests).
  - by apply (kept_getSongsByMood requests).
  - by apply (kept_recommendSongs requests).
  - by apply (kept_confirmAddRecommendedSongs requests).
Qed.

(** X3. The tools that look playlists up never write to them: on every
    world, whatever the catalog answers and whether they return or throw,
    [getSongsByMood], [recommendSongs] and [createSpotifyPlaylist] leave
    every playlist object and every playlist array as they are.  In
    particular a publication that fails half-way does not touch the local
    playlists. *)
Theorem lookups_never_write agent m playlistName w :
  playlists_part (getSongsByMood agent m w).2 = playlists_part w
  ∧ playlists_part (recommendSongs agent m w).2 = playlists_part w
  ∧ playlists_part (createSpotifyPlaylist agent m playlistName w).2 = playlists_part w.
Proof.
  split_and!.
  - by apply (kept_getSongsByMood playlists_part).
  - by apply (kept_recommendSongs playlists_part).
  - by apply (kept_createSpotifyPlaylist playlists_part).
Qed.

(** X4. The workflow never changes a playlist: its Confirm step calls
    [confirmAddRecommendedSongs] with an object that carries no [confirm],
    so nothing is ever appended, and the other two steps only read.  On
    every world and for every catalog, [run] leaves every playlist object
    and every playlist array as they are. *)
Theorem run_never_writes_playlists agent m playlistName w :
  playlists_part (run agent m playlistName w).2 = playlists_part w.
Proof. by apply (kept_run playlists_part). Qed.

(** *** Every way a publication can end *)

(** X5. Every way a publication can end.  For a stored playlist with at
    least one song and any catalog at all, what [createSpotifyPlaylist]
    returns or throws, and the world it leaves, is the one outcome that
    [publication] relates to the catalog's answers, and no other outcome is
    related to them:
    - the account lookup rejects: that error, after one request; its body
      is [null]: a [TypeError], after one request;
    - the creation rejects: that error, after two requests;
    - a search fails, the earlier ones having been answered: a [URIError]
      when its query holds a lone surrogate, and then that search is not
      sent; the error of the rejection, or a [TypeError] when the items of
      the answer cannot be read, right after that search; no later song is
      searched and nothing is attached;
    - every search is answered and the body of the creation was [null]: a
      [TypeError] after the searches, with no batch call;
    - otherwise the single batch call is made exactly when a track
      resolved; a rejection of it is thrown; if not, a [TypeError] is thrown
      when the creation carried no [external_urls], and the message with the
      URL is returned when it did. *)
Theorem createSpotifyPlaylist_outcomes a m playlistName p w out :
  wf w → stored w (playlists_of w a) m = Some p → songs p ≠ [] →
  publication (bound a w) m playlistName (songs p) out
  ↔ out = createSpotifyPlaylist (Some a) m playlistName w.
Proof.
  intros Hwf Hst Hne.
  rewrite (createSpotifyPlaylist_found _ _ _ _ _ Hwf Hst Hne). split.
  - intros Hout. symmetry. by apply publication_sound.
  - intros ->. apply publish_outcome.
Qed.

(** *** The workflow, case by case *)

(** A computation that neither reads nor writes the recorded step names:
    run on a world with other step names, it does the same and leaves those
    names in place. *)
Definition steps_blind {A} (c : M A) : Prop :=
  ∀ f w, c (set_steps f w) = ((c w).1, set_steps f (c w).2).

Lemma blind_ret {A} (x : A) : steps_blind (mret x).
Proof. by intros f w. Qed.

Lemma blind_throw {A} e : steps_blind (@throw A e).
Proof. by intros f w. Qed.

Lemma blind_bind {A B} (c : M A) (k : A → M B) :
  steps_blind c → (∀ x, steps_blind (k x)) → steps_blind (c ≫= k).
Proof.
  intros Hc Hk f w. unfold mbind, M_bind. rewrite Hc.
  destruct (c w) as [[x|e] w1]; simpl; [apply Hk | done].
Qed.

Lemma blind_read_obj l : steps_blind (read_obj l).
Proof.
  intros f w. unfold read_obj, mbind, M_bind, get_world. simpl.
  by destruct (objs w !! l).
Qed.

Lemma blind_read_array r : steps_blind (read_array r).
Proof.
  intros f w. unfold read_array, mbind, M_bind, get_world. simpl.
  by destruct (arrays w !! r).
Qed.

Lemma blind_ensurePlaylists agent : steps_blind (ensurePlaylists agent).
Proof.
  intros f w. destruct agent as [a|]; [|done].
  unfold ensurePlaylists, mbind, M_bind, get_world. simpl.
  by destruct (agents w !! a).
Qed.

Lemma blind_find_playlist r m : steps_blind (find_playlist r m).
Proof.
  intros f w. unfold find_playlist, read_array, mbind, M_bind, get_world. simpl.
  destruct (arrays w !! r) as [refs|]; [|done]. simpl.
  by destruct (find_in (objs w) m refs).
Qed.

Lemma blind_fetch e : steps_blind (fetch e).
Proof. by intros f w. Qed.

Lemma blind_fetch_search query : steps_blind (fetch_search query).
Proof.
  unfold fetch_search. destruct (lone_surrogate query); [apply blind_throw|].
  apply blind_bind; [apply blind_fetch|]. intros log.
  destruct (search_response catalog log) as [[items|]|e];
    [apply blind_ret | apply blind_throw..].
Qed.

Lemma blind_resolve_tracks ss : ∀ trackUris, steps_blind (resolve_tracks ss trackUris).
Proof.
  induction ss as [|song rest IH]; intros trackUris; simpl; [apply blind_ret|].
  apply blind_bind; [apply blind_fetch_search|]. intros items. apply IH.
Qed.

Lemma blind_publish m playlistName ss : steps_blind (publish m playlistName ss).
Proof.
  unfold publish, fetch_me, fetch_create, fetch_tracks.
  apply blind_bind.
  { apply blind_bind; [apply blind_fetch|]. intros log.
    destruct (me_response catalog log) as [[id|]|e];
      [apply blind_ret | apply blind_throw..]. }
  intros userId. apply blind_bind.
  { apply blind_bind; [apply blind_fetch|]. intros log.
    destruct (create_response catalog log); [apply blind_ret | apply blind_throw]. }
  intros body. apply blind_bind; [apply blind_resolve_tracks|]. intros trackUris.
  apply blind_bind.
  { destruct trackUris; [apply blind_ret|].
    destruct body as [created|]; [|apply blind_throw].
    apply blind_bind; [apply blind_fetch|]. intros log.
    destruct (tracks_response catalog log); [apply blind_ret | apply blind_throw]. }
  intros _. destruct (body ≫= cp_spotify); [apply blind_ret | apply blind_throw].
Qed.

Lemma blind_getSongsByMood agent m : steps_blind (getSongsByMood agent m).
Proof.
  unfold getSongsByMood. apply blind_bind; [apply blind_ensurePlaylists|]. intros r.
  apply blind_bind; [apply blind_find_playlist|]. intros [l|]; [|apply blind_throw].
  apply blind_bind; [apply blind_read_obj|]. intros p. apply blind_ret.
Qed.

Lemma blind_createSpotifyPlaylist agent m playlistName :
  steps_blind (createSpotifyPlaylist agent m playlistName).
Proof.
  unfold createSpotifyPlaylist. apply blind_bind; [apply blind_ensurePlaylists|].
  intros r. apply blind_bind; [apply blind_find_playlist|].
  intros [l|]; [|apply blind_ret].
  apply blind_bind; [apply blind_read_obj|]. intros p.
  destruct (songs p); [apply blind_ret | apply blind_publish].
Qed.

(** A rendered song is never the empty string, so the list read back is
    empty exactly when there are no songs. *)
Lemma rendered_songs_empty ss : join ", " (show_song <$> ss) = "" ↔ ss = [].
Proof.
  split; [|by intros ->].
  destruct ss as [|s rest]; [done|]. intros H. exfalso.
  unfold join in H. rewrite fmap_cons in H.
  change (String.concat ", " (show_song s :: (show_song <$> rest)))
    with (match show_song <$> rest with
          | [] => show_song s
          | _ :: _ => show_song s +:+ ", " +:+ String.concat ", " (show_song <$> rest)
          end) in H.
  destruct (show_song <$> rest); cbv in H; discriminate H.
Qed.

Lemma truthy_string_empty text : truthy_string text = false ↔ text = "".
Proof. by destruct text. Qed.

Lemma set_steps_ext f g w : f (steps w) = g (steps w) → set_steps f w = set_steps g w.
Proof. intros H. unfold set_steps. by rewrite H. Qed.

Lemma set_steps_twice f g w : set_steps f (set_steps g w) = set_steps (f ∘ g) w.
Proof. done. Qed.

Lemma bound_bound a w : bound a (bound a w) = bound a w.
Proof.
  unfold bound at 1. rewrite agents_bound, lookup_insert_eq. done.
Qed.

(** [createSpotifyPlaylist] does the same whether or not the agent has been
    bound by an earlier tool call. *)
Lemma createSpotifyPlaylist_bound a m playlistName w :
  createSpotifyPlaylist (Some a) m playlistName (bound a w)
  = createSpotifyPlaylist (Some a) m playlistName w.
Proof.
  unfold createSpotifyPlaylist.
  rewrite !(bind_ok _ _ _ _ _ (ensurePlaylists_run a _)), bound_bound.
  unfold playlists_of. rewrite agents_bound, lookup_insert_eq. done.
Qed.

(** X6. What [getSongsByMood] reads back is the empty string exactly when
    the stored playlist has no songs: every stored song is rendered to a
    non-empty text.  This is what the workflow's emptiness test relies on. *)
Theorem getSongsByMood_empty_iff a m p w :
  wf w → stored w (playlists_of w a) m = Some p →
  ∃ text,
    (getSongsByMood (Some a) m w).1 = Ok text
    ∧ (text = "" ↔ songs p = [])
    ∧ (truthy_string text = false ↔ songs p = []).
Proof.
  intros Hwf Hst. exists (join ", " (show_song <$> songs p)). split_and!.
  - by rewrite (getSongsByMood_found _ _ _ _ Hwf Hst).
  - apply rendered_songs_empty.
  - rewrite truthy_string_empty. apply rendered_songs_empty.
Qed.

(** X7. The workflow, case by case, for every catalog.  When the mood has
    no playlist the run throws a [TypeError] in its Recommend step; when the
    playlist exists and is empty it returns the no-songs message after the
    Recommend step alone; in both cases nothing but the agent's binding and
    the step names changes.  When the playlist holds songs, all three steps
    run and the run returns, or throws, exactly what [createSpotifyPlaylist]
    does on the same store, with the same requests. *)
Theorem run_outcomes a m playlistName w :
  wf w →
  (stored w (playlists_of w a) m = None →
   run (Some a) m playlistName w
   = (Throw TypeError, set_steps (λ names, names ++ ["recommend songs"]) (bound a w)))
  ∧ (∀ p, stored w (playlists_of w a) m = Some p → songs p = [] →
     run (Some a) m playlistName w
     = (Ok ("No songs found for mood " +:+ quoted m +:+ "."),
        set_steps (λ names, names ++ ["recommend songs"]) (bound a w)))
  ∧ (∀ p, stored w (playlists_of w a) m = Some p → songs p ≠ [] →
     run (Some a) m playlistName w
     = ((createSpotifyPlaylist (Some a) m playlistName w).1,
        set_steps
          (λ names, names ++ ["recommend songs"; "confirm songs";
                              "create Spotify playlist"])
          (createSpotifyPlaylist (Some a) m playlistName w).2)).
Proof.
  intros Hwf. unfold run, run_with.
  split_and!.
  - intros Hst. unfold mbind at 1, M_bind at 1.
    rewrite step_do_run, blind_getSongsByMood.
    by rewrite (getSongsByMood_absent _ _ _ Hwf Hst).
  - intros p Hst Hempty. unfold mbind at 1, M_bind at 1.
    rewrite step_do_run, blind_getSongsByMood.
    rewrite (getSongsByMood_found _ _ _ _ Hwf Hst), Hempty. done.
  - intros p Hst Hne. unfold mbind at 1, M_bind at 1.
    rewrite step_do_run, blind_getSongsByMood.
    rewrite (getSongsByMood_found _ _ _ _ Hwf Hst). cbn [fst snd].
    destruct (truthy_string (join ", " (show_song <$> songs p))) eqn:Htruthy.
    2: { apply truthy_string_empty, rendered_songs_empty in Htruthy. done. }
    cbn [negb]. unfold mbind at 1, M_bind at 1. rewrite step_do_run.
    cbn [confirmAddRecommendedSongs mret M_ret]. cbn [negb truthy_string truthy no_songs_added].
    rewrite step_do_run, !blind_createSpotifyPlaylist, createSpotifyPlaylist_bound.
    f_equal. destruct (createSpotifyPlaylist (Some a) m playlistName w) as [res w'].
    cbn [snd]. rewrite !set_steps_twice. apply set_steps_ext. simpl.
    by rewrite <- !app_assoc.
Qed.

(** *** Reading back, other moods, other stores *)

(** The search only depends on the moods of the objects the array holds. *)
Lemma find_in_ext os os' m refs :
  Forall (λ l, mood <$> os' !! l = mood <$> os !! l) refs →
  find_in os' m refs = find_in os m refs.
Proof.
  induction 1 as [|l refs Hl _ IH]; simpl; [done|].
  destruct (os' !! l) as [p'|], (os !! l) as [p|]; simplify_eq/=; [|done].
  unfold same_mood. by rewrite Hl, IH.
Qed.

Lemma find_in_app os m refs more :
  find_in os m (refs ++ more)
  = match find_in os m refs with
    | Ok None => find_in os m more
    | found => found
    end.
Proof.
  induction refs as [|l refs IH]; simpl; [by destruct (find_in os m more) as [[?|]|]|].
  destruct (os !! l) as [p|]; [|done]. by destruct (same_mood m p).
Qed.

Section Appended_more.

Context {a : AgentId} {m : string} {more : list SongEntry}
        {w : World} {l : loc} {w' : World}.
Hypothesis Happ : appended a m more w l w'.
Hypothesis Hwf : wf w.

(** Objects that existed keep their mood, so an array of the old world
    shows the same moods afterwards. *)
Lemma appended_other_objs refs :
  Forall (λ l0, is_Some (objs w !! l0)) refs →
  Forall (λ l0, mood <$> objs w' !! l0 = mood <$> objs w !! l0) refs.
Proof.
  intros Hrefs. eapply Forall_impl; [exact Hrefs|]. simpl. intros l0 [p0 H0].
  destruct (appended_mood Happ _ _ H0) as (p0' & H0' & Hmood).
  rewrite H0, H0'. simpl. by rewrite Hmood.
Qed.

(** Playlists of moods that differ from [m] by more than case are as
    before, in the array the call worked on. *)
Lemma appended_other_mood m' :
  toLowerCase m' ≠ toLowerCase m →
  stored w' (playlists_of w a) m' = stored w (playlists_of w a) m'.
Proof.
  intros Hm'. destruct (wf_playlists_of a w Hwf) as [refs Hrefs].
  pose proof (wf_elements _ _ _ Hwf Hrefs) as Helems.
  assert (find w' (playlists_of w a) m' = find w (playlists_of w a) m') as Hfind.
  { destruct (find w (playlists_of w a) m) as [l0|] eqn:Hf.
    - destruct (app_found _ _ _ _ _ _ Happ _ Hf) as [_ Harr].
      unfold find. rewrite Harr, Hrefs.
      by rewrite (find_in_ext _ _ _ _ (appended_other_objs _ Helems)).
    - destruct (app_created _ _ _ _ _ _ Happ Hf) as [Hnew Harr].
      unfold find. rewrite Harr, lookup_insert_eq, Hrefs. simpl.
      rewrite find_in_app, (find_in_ext _ _ _ _ (appended_other_objs _ Helems)).
      destruct (find_in (objs w) m' refs) as [[l1|]|]; [done| |done].
      simpl. rewrite (app_obj _ _ _ _ _ _ Happ). unfold same_mood, stored. simpl.
      rewrite Hf. simpl. by rewrite bool_decide_eq_false_2. }
  unfold stored. rewrite Hfind.
  destruct (find w (playlists_of w a) m') as [l1|] eqn:Hf1; [|done]. simpl.
  destruct (find_Some _ _ _ _ Hf1) as (_ & p1 & _ & _ & _ & Hp1 & Hmood1).
  apply (app_objs _ _ _ _ _ _ Happ). intros ->.
  destruct (appended_mood Happ _ _ Hp1) as (p1' & Hp1' & Hmood).
  rewrite (app_obj _ _ _ _ _ _ Happ) in Hp1'. injection Hp1' as <-. simpl in Hmood.
  destruct (find w (playlists_of w a) m) as [l0|] eqn:Hf.
  - destruct (app_found _ _ _ _ _ _ Happ _ Hf) as [-> _].
    destruct (find_Some _ _ _ _ Hf) as (_ & p0 & _ & _ & _ & Hp0 & Hmood0).
    congruence.
  - destruct (app_created _ _ _ _ _ _ Happ Hf) as [Hnew _]. congruence.
Qed.

(** An array that shares no playlist with the array the call worked on
    holds what it held. *)
Lemma appended_other_array r2 refs2 m' :
  r2 ≠ playlists_of w a → arrays w !! r2 = Some refs2 →
  (∀ refs l0, arrays w !! playlists_of w a = Some refs → l0 ∈ refs → l0 ∉ refs2) →
  stored w' r2 m' = stored w r2 m'.
Proof.
  intros Hr2 Hrefs2 Hdisjoint.
  pose proof (wf_elements _ _ _ Hwf Hrefs2) as Helems.
  assert (l ∉ refs2) as Hl.
  { destruct (find w (playlists_of w a) m) as [l0|] eqn:Hf.
    - destruct (app_found _ _ _ _ _ _ Happ _ Hf) as [-> _].
      destruct (find_Some _ _ _ _ Hf) as (refs & _ & Hrefs & _ & Hin & _).
      by apply (Hdisjoint refs).
    - destruct (app_created _ _ _ _ _ _ Happ Hf) as [Hnew _]. intros Hin.
      rewrite Forall_forall in Helems. destruct (Helems _ Hin) as [p0 Hp0]. congruence. }
  assert (arrays w' !! r2 = Some refs2) as Hrefs2'.
  { destruct (find w (playlists_of w a) m) as [l0|] eqn:Hf.
    - destruct (app_found _ _ _ _ _ _ Happ _ Hf) as [_ ->]. done.
    - destruct (app_created _ _ _ _ _ _ Happ Hf) as [_ ->].
      by rewrite lookup_insert_ne. }
  unfold stored, find. rewrite Hrefs2, Hrefs2'.
  rewrite (find_in_ext _ _ _ _ (appended_other_objs _ Helems)).
  destruct (find_in (objs w) m' refs2) as [[l1|]|] eqn:Hf1; [|done..]. simpl.
  apply (app_objs _ _ _ _ _ _ Happ). intros ->.
  by destruct (find_in_Some _ _ _ _ Hf1) as [Hin _].
Qed.

End Appended_more.

(** What [getSongsByMood] returns only depends on the playlist stored for
    the mood in the agent's array. *)
Lemma getSongsByMood_reads_stored b m w w' :
  wf w → wf w' → playlists_of w' b = playlists_of w b →
  stored w' (playlists_of w b) m = stored w (playlists_of w b) m →
  (getSongsByMood (Some b) m w').1 = (getSongsByMood (Some b) m w).1.
Proof.
  intros Hwf Hwf' Hpl Hst.
  destruct (stored w (playlists_of w b) m) as [p|] eqn:Hp.
  - rewrite (getSongsByMood_found _ _ _ _ Hwf Hp).
    rewrite <- Hpl in Hst. by rewrite (getSongsByMood_found _ _ _ _ Hwf' Hst).
  - rewrite (getSongsByMood_absent _ _ _ Hwf Hp).
    rewrite <- Hpl in Hst. by rewrite (getSongsByMood_absent _ _ _ Hwf' Hst).
Qed.


(** X9. Adding to one mood leaves the others alone: after [addSong] or a
    confirmed [confirmAddRecommendedSongs] for mood [m], the playlist
    stored in the agent's array for any mood that differs from [m] by more
    than case is what it was, absent if it was absent. *)
Theorem other_moods_are_untouched a t ar recommendedSongs m m' w :
  wf w → toLowerCase m' ≠ toLowerCase m →
  stored (addSong (Some a) t ar m w).2 (playlists_of w a) m'
  = stored w (playlists_of w a) m'
  ∧ stored (confirmAddRecommendedSongs (Some a)
              (Confirmation true recommendedSongs m) w).2 (playlists_of w a) m'
    = stored w (playlists_of w a) m'.
Proof.
  intros Hwf Hm'. split.
  - destruct (addSong_run a t ar m w Hwf) as (l & w1 & -> & Happ).
    by apply (appended_other_mood Happ).
  - destruct (confirm_run a recommendedSongs m w Hwf) as (l & w1 & -> & Happ).
    by apply (appended_other_mood Happ).
Qed.

(** X10. An agent that carries its own [playlists] array is isolated from
    the others: when that array is not the one another agent's [addSong]
    works on and the two arrays share no playlist object, what
    [getSongsByMood] returns to the first agent, for every mood, is the
    same after the other agent's [addSong] as before. *)
Theorem own_store_is_isolated a b r2 refs2 t ar m m' w :
  wf w → agents w !! b = Some r2 → r2 ≠ playlists_of w a →
  arrays w !! r2 = Some refs2 →
  (∀ refs l0, arrays w !! playlists_of w a = Some refs → l0 ∈ refs → l0 ∉ refs2) →
  (getSongsByMood (Some b) m' (addSong (Some a) t ar m w).2).1
  = (getSongsByMood (Some b) m' w).1.
Proof.
  intros Hwf Hb Hr2 Hrefs2 Hdisjoint.
  destruct (addSong_run a t ar m w Hwf) as (l & w1 & -> & Happ).
  assert (playlists_of w b = r2) as Hpl by (unfold playlists_of; by rewrite Hb).
  apply getSongsByMood_reads_stored;
    [done | apply (app_wf _ _ _ _ _ _ Happ) | apply (appended_playlists_of Happ) |].
  rewrite Hpl. by apply (appended_other_array Happ Hwf r2 refs2).
Qed.

(** *** The store only grows *)

(** [w'] extends [w]: every playlist object is still there with the same
    mood and its songs as a prefix of what it holds now, every array is a
    prefix of what it is now, every agent bound to an array is still bound
    to it, and the request log and the step names were only added to. *)
Definition grows (w w' : World) : Prop :=
  (∀ l p, objs w !! l = Some p →
     ∃ p', objs w' !! l = Some p' ∧ mood p' = mood p ∧ songs p `prefix_of` songs p')
  ∧ (∀ r refs, arrays w !! r = Some refs →
       ∃ refs', arrays w' !! r = Some refs' ∧ refs `prefix_of` refs')
  ∧ (∀ a r, agents w !! a = Some r → agents w' !! a = Some r)
  ∧ requests w `prefix_of` requests w'
  ∧ steps w `prefix_of` steps w'.

(** One call of a tool or one run of the workflow, by any agent or none,
    returning or throwing. *)
Inductive tool_call : World → World → Prop :=
| call_addSong w agent t ar m : tool_call w (addSong agent t ar m w).2
| call_getSongsByMood w agent m : tool_call w (getSongsByMood agent m w).2
| call_recommendSongs w agent m : tool_call w (recommendSongs agent m w).2
| call_confirmAddRecommendedSongs w agent input :
    tool_call w (confirmAddRecommendedSongs agent input w).2
| call_createSpotifyPlaylist w agent m playlistName :
    tool_call w (createSpotifyPlaylist agent m playlistName w).2
| call_run w agent m playlistName : tool_call w (run agent m playlistName w).2.

(** A computation that takes well-formed worlds to well-formed worlds
    that extend them. *)
Definition advances {A} (c : M A) : Prop :=
  ∀ w, wf w → wf (c w).2 ∧ grows w (c w).2.

Lemma grows_refl w : grows w w.
Proof.
  split_and!; try done.
  - intros l p Hp. by exists p.
  - intros r refs Hrefs. by exists refs.
Qed.

Lemma grows_trans w1 w2 w3 : grows w1 w2 → grows w2 w3 → grows w1 w3.
Proof.
  intros (Ho1 & Ha1 & Hg1 & Hr1 & Hs1) (Ho2 & Ha2 & Hg2 & Hr2 & Hs2). split_and!.
  - intros l p Hp. destruct (Ho1 _ _ Hp) as (p2 & Hp2 & Hm2 & Hs2').
    destruct (Ho2 _ _ Hp2) as (p3 & Hp3 & Hm3 & Hs3').
    exists p3. split_and!; [done | congruence | by etrans].
  - intros r refs Hrefs. destruct (Ha1 _ _ Hrefs) as (refs2 & Hrefs2 & Hpre2).
    destruct (Ha2 _ _ Hrefs2) as (refs3 & Hrefs3 & Hpre3).
    exists refs3. split; [done | by etrans].
  - intros a r Ha. by apply Hg2, Hg1.
  - by etrans.
  - by etrans.
Qed.

Lemma grows_bound a w : grows w (bound a w).
Proof.
  split_and!.
  - rewrite objs_bound. intros l p Hp. by exists p.
  - rewrite arrays_bound. intros r refs Hrefs. by exists refs.
  - rewrite agents_bound. intros a' r Ha'. destruct (decide (a = a')) as [->|Hne].
    + rewrite lookup_insert_eq. unfold playlists_of. by rewrite Ha'.
    + by rewrite lookup_insert_ne.
  - by rewrite requests_bound.
  - by rewrite steps_bound.
Qed.

Lemma grows_appended a m more w l w' : appended a m more w l w' → grows w w'.
Proof.
  intros Happ. split_and!.
  - intros l0 p0 H0. destruct (decide (l0 = l)) as [->|Hne].
    + eexists. split; [apply (app_obj _ _ _ _ _ _ Happ)|]. simpl.
      destruct (find w (playlists_of w a) m) as [l1|] eqn:Hfind.
      * destruct (app_found _ _ _ _ _ _ Happ _ Hfind) as [-> _].
        unfold stored_songs, stored. rewrite Hfind. simpl. rewrite H0. simpl.
        split; [done|]. by apply prefix_app_r.
      * destruct (app_created _ _ _ _ _ _ Happ Hfind) as [Hnone _]. congruence.
    + exists p0. by rewrite (app_objs _ _ _ _ _ _ Happ _ Hne).
  - intros r refs Hrefs.
    destruct (find w (playlists_of w a) m) as [l1|] eqn:Hfind.
    + destruct (app_found _ _ _ _ _ _ Happ _ Hfind) as [_ ->]. by exists refs.
    + destruct (app_created _ _ _ _ _ _ Happ Hfind) as [_ ->].
      destruct (decide (playlists_of w a = r)) as [<-|Hne].
      * rewrite lookup_insert_eq, Hrefs. simpl. eexists. split; [done|].
        by apply prefix_app_r.
      * rewrite lookup_insert_ne by done. by exists refs.
  - rewrite (app_agents _ _ _ _ _ _ Happ). intros a' r Ha'.
    destruct (decide (a = a')) as [->|Hne].
    + rewrite lookup_insert_eq. unfold playlists_of. by rewrite Ha'.
    + by rewrite lookup_insert_ne.
  - by rewrite (app_requests _ _ _ _ _ _ Happ).
  - by rewrite (app_steps _ _ _ _ _ _ Happ).
Qed.

Lemma advances_ret {A} (x : A) : advances (mret x).
Proof. intros w Hwf. split; [done | apply grows_refl]. Qed.

Lemma advances_bind {A B} (c : M A) (k : A → M B) :
  advances c → (∀ x, advances (k x)) → advances (c ≫= k).
Proof.
  intros Hc Hk w Hwf. destruct (Hc w Hwf) as [Hwf1 Hg1]. unfold mbind, M_bind.
  destruct (c w) as [[x|e] w1]; simpl in *; [|done].
  destruct (Hk x w1 Hwf1) as [Hwf2 Hg2]. split; [done | by eapply grows_trans].
Qed.

Lemma advances_step name : advances (modify (set_steps (λ names, names ++ [name]))).
Proof.
  intros w Hwf. split; [done|]. split_and!; simpl; try done.
  - intros l p Hp. by exists p.
  - intros r refs Hrefs. by exists refs.
  - by apply prefix_app_r.
Qed.

Lemma advances_addSong agent t ar m : advances (addSong agent t ar m).
Proof.
  intros w Hwf. destruct agent as [a|]; [|split; [done | apply grows_refl]].
  destruct (addSong_run a t ar m w Hwf) as (l & w' & -> & Happ).
  split; [apply (app_wf _ _ _ _ _ _ Happ) | by eapply grows_appended].
Qed.

Lemma advances_confirmAddRecommendedSongs agent input :
  advances (confirmAddRecommendedSongs agent input).
Proof.
  intros w Hwf.
  destruct input as [[|] recommendedSongs m | text];
    [|split; [done | apply grows_refl]..].
  destruct agent as [a|]; [|split; [done | apply grows_refl]].
  destruct (confirm_run a recommendedSongs m w Hwf) as (l & w' & -> & Happ).
  split; [apply (app_wf _ _ _ _ _ _ Happ) | by eapply grows_appended].
Qed.

Lemma advances_getSongsByMood agent m : advances (getSongsByMood agent m).
Proof.
  intros w Hwf. destruct agent as [a|]; [|split; [done | apply grows_refl]].
  destruct (stored w (playlists_of w a) m) as [p|] eqn:Hst.
  - rewrite (getSongsByMood_found _ _ _ _ Hwf Hst).
    split; [by apply wf_bound | apply grows_bound].
  - rewrite (getSongsByMood_absent _ _ _ Hwf Hst).
    split; [by apply wf_bound | apply grows_bound].
Qed.

Lemma advances_recommendSongs agent m : advances (recommendSongs agent m).
Proof.
  intros w Hwf. destruct agent as [a|]; [|split; [done | apply grows_refl]].
  destruct (stored w (playlists_of w a) m) as [p|] eqn:Hst.
  - destruct (decide (songs p = [])) as [Hempty|Hne].
    + rewrite recommendSongs_nothing; [|done|right; by exists p].
      split; [by apply wf_bound | apply grows_bound].
    + destruct (recommendSongs_found a m p w Hwf Hst Hne) as (l & _ & _ & ->).
      split; [by apply wf_bound | apply grows_bound].
  - rewrite recommendSongs_nothing; [|done|by left].
    split; [by apply wf_bound | apply grows_bound].
Qed.

Lemma advances_publish m playlistName ss : advances (publish m playlistName ss).
Proof.
  intros w Hwf. destruct (publish_sends m playlistName ss w) as (new & ->).
  split; [done|]. split_and!; simpl; try done.
  - intros l p Hp. by exists p.
  - intros r refs Hrefs. by exists refs.
  - by apply prefix_app_r.
Qed.

Lemma advances_createSpotifyPlaylist agent m playlistName :
  advances (createSpotifyPlaylist agent m playlistName).
Proof.
  intros w Hwf. destruct agent as [a|]; [|split; [done | apply grows_refl]].
  destruct (stored w (playlists_of w a) m) as [p|] eqn:Hst.
  - destruct (decide (songs p = [])) as [Hempty|Hne].
    + rewrite createSpotifyPlaylist_nothing; [|done|right; by exists p].
      split; [by apply wf_bound | apply grows_bound].
    + rewrite (createSpotifyPlaylist_found _ _ _ _ _ Hwf Hst Hne).
      destruct (advances_publish m playlistName (songs p) (bound a w)
                  (wf_bound a w Hwf)) as [Hwf' Hg].
      split; [done|]. eapply grows_trans; [apply grows_bound | done].
  - rewrite createSpotifyPlaylist_nothing; [|done|by left].
    split; [by apply wf_bound | apply grows_bound].
Qed.

Lemma advances_run agent m playlistName : advances (run agent m playlistName).
Proof.
  unfold run, run_with, step_do.
  apply advances_bind.
  { apply advances_bind; [apply advances_step|]. intros _.
    apply advances_getSongsByMood. }
  intros recommendedSongs. destruct (negb (truthy_string recommendedSongs));
    [apply advances_ret|].
  apply advances_bind.
  { apply advances_bind; [apply advances_step|]. intros _.
    apply advances_confirmAddRecommendedSongs. }
  intros confirmed. destruct (negb (truthy_string confirmed)); [apply advances_ret|].
  apply advances_bind; [apply advances_step|]. intros _.
  apply advances_createSpotifyPlaylist.
Qed.

(** X11. The store is append-only.  Over any sequence of tool calls and
    workflow runs, by any agents, returning or throwing and whatever the
    catalog answers: no playlist object disappears or changes its mood,
    the songs a playlist held stay where they were with any new ones after
    them, no array loses or reorders an element, an agent bound to an array
    stays bound to it, and the request log is only added to. *)
Theorem store_only_grows w w' :
  wf w → rtc tool_call w w' → wf w' ∧ grows w w'.
Proof.
  intros Hwf Hcalls. induction Hcalls as [w | w w1 w2 Hcall _ IH].
  - split; [done | apply grows_refl].
  - assert (wf w1 ∧ grows w w1) as [Hwf1 Hg1].
    { destruct Hcall.
      - by apply advances_addSong.
      - by apply advances_getSongsByMood.
      - by apply advances_recommendSongs.
      - by apply advances_confirmAddRecommendedSongs.
      - by apply advances_createSpotifyPlaylist.
      - by apply advances_run. }
    destruct (IH Hwf1) as [Hwf2 Hg2]. split; [done | by eapply grows_trans].
Qed.

(** *** What the publisher sends *)











End Tools.

(** ** Concrete runs *)

Definition song_a : SongEntry := {| title := "A"; artist := Some "X" |}.
Definition song_b : SongEntry := {| title := "Unknown"; artist := None |}.
Definition song_c : SongEntry := {| title := "C"; artist := Some "" |}.

(** The store after agent 0 added [song_a] and [song_b] under "Happy". *)
Definition happy_world : World :=
  (addSongs ascii_toLowerCase 0 "Happy" [song_a; song_b] initial_world).2.

(** The store after agent 0 added [song_c], whose artist is the empty
    string, under "Chill". *)
Definition chill_world : World :=
  (addSong ascii_toLowerCase (Some 0) "C" (Some "") "Chill" initial_world).2.

(** The query as the specification words it: title and artist whenever the
    song has an artist, the title alone when it has none. *)
Definition spec_query (s : SongEntry) : string :=
  match artist s with
  | Some ar => title s +:+ " " +:+ ar
  | None => title s
  end.

(** The requests of publishing the "Chill" playlist of [chill_world]. *)
Definition chill_requests : list Endpoint :=
  endpoint
  <$> requests
        (createSpotifyPlaylist ascii_toLowerCase "token" demo_catalog (Some 0)
           "Chill" "Mix" chill_world).2.

Lemma wf_happy_world : wf happy_world.
Proof. refine (bool_decide_unpack _ _). by vm_compute. Qed.

(** A title that is one surrogate code unit on its own (U+D800). *)
Definition lone_title : string :=
  String "237"%char (String "160"%char (String "128"%char EmptyString)).

Definition song_d : SongEntry := {| title := lone_title; artist := None |}.

(** The store after agent 0 added [song_d] and [song_a] under "Odd". *)
Definition odd_world : World :=
  (addSongs ascii_toLowerCase 0 "Odd" [song_d; song_a] initial_world).2.

Lemma wf_odd_world : wf odd_world.
Proof. refine (bool_decide_unpack _ _). by vm_compute. Qed.

(** *** The theorems with hypotheses, applied *)

Lemma reachable_invariant_witness : invariant ascii_toLowerCase happy_world.
Proof.
  apply (reachable_invariant ascii_toLowerCase "token" demo_catalog happy_world).
  change happy_world
    with (addSong ascii_toLowerCase (Some 0) "Unknown" None "Happy"
            (addSong ascii_toLowerCase (Some 0) "A" (Some "X") "Happy"
               initial_world).2).2.
  apply reach_addSong, reach_addSong, reach_initial.
Defined.

Lemma global_store_shared_between_agents_witness :
  ∃ msg w1,
    addSong ascii_toLowerCase (Some 1) "C" None "happy" happy_world = (Ok msg, w1)
    ∧ agents w1 !! 1 = Some globalPlaylists
    ∧ (ensurePlaylists (Some 2) w1).1 = Ok globalPlaylists
    ∧ (getSongsByMood ascii_toLowerCase (Some 2) "happy" w1).1
      = Ok (join ", "
              (show_song <$> stored_songs ascii_toLowerCase happy_world
                               globalPlaylists "happy"
                             ++ [{| title := "C"; artist := None |}])).
Proof.
  apply (global_store_shared_between_agents ascii_toLowerCase 1 2 "C" None "happy"
           happy_world).
  - exact wf_happy_world.
  - done.
  - by vm_compute.
  - by vm_compute.
Defined.

Lemma findOrCreate_case_insensitive_witness :
  (∃ l w1 p,
     getOrCreatePlaylist ascii_toLowerCase (Some 0) "Happy" initial_world = (Ok l, w1)
     ∧ getOrCreatePlaylist ascii_toLowerCase (Some 0) "happy" w1 = (Ok l, w1)
     ∧ objs w1 !! l = Some p
     ∧ (stored ascii_toLowerCase initial_world (playlists_of initial_world 0) "Happy"
        = None → mood p = "Happy")
     ∧ (∀ l0 p0, objs initial_world !! l0 = Some p0 → objs w1 !! l0 = Some p0))
  ∧ ∃ ls w',
      getOrCreate_all ascii_toLowerCase [(0, "Happy"); (1, "HAPPY"); (0, "Sad")]
        initial_world
      = (Ok ls, w')
      ∧ unique_moods ascii_toLowerCase w'
      ∧ ∀ l0 p0, objs initial_world !! l0 = Some p0 → objs w' !! l0 = Some p0.
Proof.
  split.
  - apply (proj1 (findOrCreate_case_insensitive ascii_toLowerCase initial_world
                    wf_initial)
             0 "Happy" "happy").
    by vm_compute.
  - apply (proj2 (findOrCreate_case_insensitive ascii_toLowerCase initial_world
                    wf_initial)
             (proj2 (invariant_initial ascii_toLowerCase))).
Defined.

Lemma confirmed_songs_are_appended_witness :
  ∃ l w',
    confirmAddRecommendedSongs ascii_toLowerCase (Some 0)
      (Confirmation true [song_a; song_b] "Chill") initial_world
    = (Ok ("Added " +:+ pretty (length [song_a; song_b]) +:+ " songs to your "
           +:+ quoted "Chill" +:+ " playlist."), w')
    ∧ find ascii_toLowerCase w' (playlists_of initial_world 0) "Chill" = Some l
    ∧ objs w' !! l
      = Some {| mood := default "Chill"
                          (mood <$> stored ascii_toLowerCase initial_world
                                      (playlists_of initial_world 0) "Chill");
                songs := stored_songs ascii_toLowerCase initial_world
                           (playlists_of initial_world 0) "Chill"
                         ++ [song_a; song_b] |}
    ∧ (stored ascii_toLowerCase initial_world (playlists_of initial_world 0) "Chill"
       = None →
       objs initial_world !! l = None
       ∧ arrays w' !! playlists_of initial_world 0
         = (λ refs, refs ++ [l]) <$> arrays initial_world !! playlists_of initial_world 0)
    ∧ (∀ l0, l0 ≠ l → objs w' !! l0 = objs initial_world !! l0)
    ∧ wf w'.
Proof.
  apply (confirmed_songs_are_appended ascii_toLowerCase 0 [song_a; song_b] "Chill"
           initial_world).
  exact wf_initial.
Defined.

Lemma nothing_to_publish_witness :
  ∃ w',
    createSpotifyPlaylist ascii_toLowerCase "token" demo_catalog (Some 0) "Sad" "Mix"
      happy_world
    = (Ok ("No songs found in your " +:+ quoted "Sad" +:+ " playlist."), w')
    ∧ requests w' = requests happy_world
    ∧ objs w' = objs happy_world ∧ arrays w' = arrays happy_world.
Proof.
  apply (nothing_to_publish ascii_toLowerCase "token" demo_catalog 0 "Sad" "Mix"
           happy_world).
  - exact wf_happy_world.
  - left. by vm_compute.
Defined.

Lemma recommendSongs_outcomes_witness :
  (recommendSongs ascii_toLowerCase (Some 0) "Sad" happy_world).1
  = Ok (Message ("You don't have any songs in your " +:+ quoted "Sad"
                 +:+ " playlist yet."))
  ∧ ∃ l prompt,
      (recommendSongs ascii_toLowerCase (Some 0) "happy" happy_world).1
      = Ok (LlmPrompt prompt "happy" l)
      ∧ objs (recommendSongs ascii_toLowerCase (Some 0) "happy" happy_world).2 !! l
        = Some {| mood := "Happy"; songs := [song_a; song_b] |}
      ∧ contains (join newline (prompt_line <$> [song_a; song_b])) prompt
      ∧ contains "Generate 3 similar song recommendations" prompt
      ∧ contains "Reply yes or no." prompt.
Proof.
  split.
  - apply (proj1 (recommendSongs_outcomes ascii_toLowerCase 0 "Sad" happy_world
                    wf_happy_world)).
    left. by vm_compute.
  - apply (proj2 (recommendSongs_outcomes ascii_toLowerCase 0 "happy" happy_world
                    wf_happy_world)
             {| mood := "Happy"; songs := [song_a; song_b] |}).
    + by vm_compute.
    + done.
Defined.


Lemma publish_attaches_resolved_tracks_witness :
  createSpotifyPlaylist ascii_toLowerCase "token" demo_catalog (Some 0) "Happy" "Mix"
    happy_world
  = (Ok ("Spotify playlist " +:+ quoted "Mix"
         +:+ " created! Listen here: https://open.spotify.com/playlist/pl1"),
     sent (request "token"
           <$> [GetMe;
                PostPlaylist "user1" "Mix"
                  ("Playlist generated from your " +:+ quoted "Happy" +:+ " songs")
                  false;
                GetSearch "A X";
                GetSearch "Unknown";
                PostTracks "pl1" ["spotify:track:A X"]])
       (bound 0 happy_world))
  ∧ (∀ s1 s2 uri,
       [song_a; song_b] = [s1; s2] →
       resolutions "token" demo_catalog
         (requests happy_world ++ opening "token" "user1" "Mix" "Happy") [s1; s2]
       = [Some uri; None] →
       attach "token" "pl1"
         (resolved "token" demo_catalog
            (requests happy_world ++ opening "token" "user1" "Mix" "Happy")
            [song_a; song_b])
       = [request "token" (PostTracks "pl1" [uri])]).
Proof.
  apply (publish_attaches_resolved_tracks ascii_toLowerCase "token" demo_catalog
           0 "Happy" "Mix" {| mood := "Happy"; songs := [song_a; song_b] |} "user1"
           {| cp_id := "pl1";
              cp_spotify := Some "https://open.spotify.com/playlist/pl1" |}
           happy_world).
  - exact wf_happy_world.
  - by vm_compute.
  - done.
  - done.
  - done.
  - simpl. split_and!; try done; by eexists.
  - done.
Defined.

(** A store in which agent 5 has a [playlists] array of its own, holding
    a "Happy" playlist with [song_a]; the global array is empty. *)
Definition own_world : World :=
  {| objs := {[3%positive := {| mood := "Happy"; songs := [song_a] |}]};
     arrays := {[globalPlaylists := []; 2%positive := [3%positive]]};
     agents := {[5 := 2%positive]};
     requests := [];
     steps := [] |}.

Lemma wf_own_world : wf own_world.
Proof. refine (bool_decide_unpack _ _). by vm_compute. Qed.

Lemma createSpotifyPlaylist_outcomes_witness :
  createSpotifyPlaylist ascii_toLowerCase "token" demo_catalog (Some 0) "Odd" "Mix"
    odd_world
  = (Throw URIError, sent (opening "token" "user1" "Mix" "Odd") (bound 0 odd_world))
  ∧ createSpotifyPlaylist ascii_toLowerCase "token" null_catalog (Some 0) "Happy" "Mix"
      happy_world
    = (Throw TypeError,
       sent (opening "token" "user1" "Mix" "Happy" ++ searches "token" [song_a; song_b])
         (bound 0 happy_world)).
Proof.
  split.
  - symmetry.
    apply (proj1 (createSpotifyPlaylist_outcomes ascii_toLowerCase "token" demo_catalog
                    0 "Odd" "Mix" {| mood := "Odd"; songs := [song_d; song_a] |}
                    odd_world _ wf_odd_world eq_refl
                    ltac:(discriminate))).
    apply (search_fails "token" demo_catalog _ _ _ _ "user1"
             (Some {| cp_id := "pl1";
                      cp_spotify := Some "https://open.spotify.com/playlist/pl1" |})
             [] song_d [song_a] URIError []); [done..|].
    by constructor.
  - symmetry.
    apply (proj1 (createSpotifyPlaylist_outcomes ascii_toLowerCase "token" null_catalog
                    0 "Happy" "Mix" {| mood := "Happy"; songs := [song_a; song_b] |}
                    happy_world _ wf_happy_world eq_refl
                    ltac:(discriminate))).
    apply (creation_null "token" null_catalog _ _ _ _ "user1"); [done..|].
    simpl. split_and!; try done; by eexists.
Defined.

Lemma getSongsByMood_empty_iff_witness :
  ∃ text,
    (getSongsByMood ascii_toLowerCase (Some 0) "HAPPY" happy_world).1 = Ok text
    ∧ (text = "" ↔ [song_a; song_b] = [])
    ∧ (truthy_string text = false ↔ [song_a; song_b] = []).
Proof.
  apply (getSongsByMood_empty_iff ascii_toLowerCase 0 "HAPPY"
           {| mood := "Happy"; songs := [song_a; song_b] |} happy_world).
  - exact wf_happy_world.
  - by vm_compute.
Defined.

Lemma run_outcomes_witness :
  run ascii_toLowerCase "token" demo_catalog (Some 0) "Sad" "Mix" happy_world
  = (Throw TypeError,
     set_steps (λ names, names ++ ["recommend songs"]) (bound 0 happy_world))
  ∧ run ascii_toLowerCase "token" demo_catalog (Some 0) "Happy" "Mix" happy_world
    = ((createSpotifyPlaylist ascii_toLowerCase "token" demo_catalog (Some 0)
          "Happy" "Mix" happy_world).1,
       set_steps
         (λ names, names ++ ["recommend songs"; "confirm songs";
                             "create Spotify playlist"])
         (createSpotifyPlaylist ascii_toLowerCase "token" demo_catalog (Some 0)
            "Happy" "Mix" happy_world).2).
Proof.
  split.
  - apply (proj1 (run_outcomes ascii_toLowerCase "token" demo_catalog 0 "Sad" "Mix"
                    happy_world wf_happy_world)).
    by vm_compute.
  - apply (proj2 (proj2 (run_outcomes ascii_toLowerCase "token" demo_catalog 0
                           "Happy" "Mix" happy_world wf_happy_world))
             {| mood := "Happy"; songs := [song_a; song_b] |}).
    + by vm_compute.
    + done.
Defined.


Lemma other_moods_are_untouched_witness :
  stored ascii_toLowerCase
    (addSong ascii_toLowerCase (Some 0) "C" None "Sad" happy_world).2
    (playlists_of happy_world 0) "happy"
  = stored ascii_toLowerCase happy_world (playlists_of happy_world 0) "happy"
  ∧ stored ascii_toLowerCase
      (confirmAddRecommendedSongs ascii_toLowerCase (Some 0)
         (Confirmation true [song_c] "Sad") happy_world).2
      (playlists_of happy_world 0) "happy"
    = stored ascii_toLowerCase happy_world (playlists_of happy_world 0) "happy".
Proof.
  apply (other_moods_are_untouched ascii_toLowerCase 0 "C" None [song_c] "Sad" "happy"
           happy_world).
  - exact wf_happy_world.
  - by vm_compute.
Defined.

Lemma own_store_is_isolated_witness :
  (getSongsByMood ascii_toLowerCase (Some 5) "happy"
     (addSong ascii_toLowerCase (Some 0) "B" None "Happy" own_world).2).1
  = (getSongsByMood ascii_toLowerCase (Some 5) "happy" own_world).1.
Proof.
  apply (own_store_is_isolated ascii_toLowerCase 0 5 2%positive [3%positive]
           "B" None "Happy" "happy" own_world).
  - exact wf_own_world.
  - by vm_compute.
  - by vm_compute.
  - by vm_compute.
  - intros refs l0 Hrefs Hin. vm_compute in Hrefs.
    injection Hrefs as <-. by apply elem_of_nil in Hin.
Defined.

Lemma store_only_grows_witness :
  wf (run ascii_toLowerCase "token" demo_catalog (Some 0) "Happy" "Mix"
        (addSong ascii_toLowerCase (Some 1) "C" None "happy" happy_world).2).2
  ∧ grows happy_world
      (run ascii_toLowerCase "token" demo_catalog (Some 0) "Happy" "Mix"
         (addSong ascii_toLowerCase (Some 1) "C" None "happy" happy_world).2).2.
Proof.
  apply (store_only_grows ascii_toLowerCase "token" demo_catalog).
  - exact wf_happy_world.
  - eapply rtc_l; [apply call_addSong|].
    eapply rtc_l; [apply call_run|].
    apply rtc_refl.
Defined.


(** *** Runs of the publisher and of the workflow *)

(** The two-song case of the specification: only the first song has a
    match, the remote playlist is created and exactly one track is
    attached. *)
Example publish_two_songs_one_match :
  createSpotifyPlaylist ascii_toLowerCase "token" demo_catalog (Some 0) "Happy" "Mix"
    happy_world
  = (Ok (playlist_created "Mix" "https://open.spotify.com/playlist/pl1"),
     set_requests
       (λ _, request "token"
             <$> [GetMe;
                  PostPlaylist "user1" "Mix" (description_for "Happy") false;
                  GetSearch "A X";
                  GetSearch "Unknown";
                  PostTracks "pl1" ["spotify:track:A X"]])
       happy_world).
Proof. by vm_compute. Qed.

(** A rejected call aborts the publication where it happens: nothing is
    caught, and the local store is as before. *)
Example publish_aborts_on_rejected_call :
  createSpotifyPlaylist ascii_toLowerCase "token" dead_catalog (Some 0) "Happy" "Mix"
    happy_world
  = (Throw FetchError, set_requests (λ _, [request "token" GetMe]) happy_world).
Proof. by vm_compute. Qed.

(** Surrogates on their own and in a pair: U+D800 alone, U+DC00 alone, and
    the pair U+D83D U+DE00; a text without surrogates. *)
Example lone_surrogate_cases :
  lone_surrogate lone_title = true
  ∧ lone_surrogate
      (String "237"%char (String "176"%char (String "128"%char EmptyString))) = true
  ∧ lone_surrogate
      (String "237"%char (String "160"%char (String "189"%char
         (String "237"%char (String "184"%char (String "128"%char EmptyString))))))
    = false
  ∧ lone_surrogate "A X" = false.
Proof. done. Qed.

(** A title that is a lone surrogate: [encodeURIComponent] throws before
    the first search is sent, after the remote playlist was created. *)
Example publish_throws_on_lone_surrogate :
  createSpotifyPlaylist ascii_toLowerCase "token" demo_catalog (Some 0) "Odd" "Mix"
    odd_world
  = (Throw URIError,
     set_requests
       (λ _, request "token"
             <$> [GetMe; PostPlaylist "user1" "Mix" (description_for "Odd") false])
       odd_world).
Proof. by vm_compute. Qed.

(** A creation answered with the body [null]: both songs are searched, and
    the tool throws when it reads the id for the batch call, which is not
    sent. *)
Example publish_with_null_creation :
  createSpotifyPlaylist ascii_toLowerCase "token" null_catalog (Some 0) "Happy" "Mix"
    happy_world
  = (Throw TypeError,
     set_requests
       (λ _, request "token"
             <$> [GetMe;
                  PostPlaylist "user1" "Mix" (description_for "Happy") false;
                  GetSearch "A X";
                  GetSearch "Unknown"])
       happy_world).
Proof. by vm_compute. Qed.

(** C7 as stated fails on a song whose artist is the empty string: the
    artist is present, the specification's query is the title followed by a
    space, and the search that is issued is for the title alone. *)
Lemma empty_artist_is_left_out_of_query :
  stored_songs ascii_toLowerCase chill_world globalPlaylists "Chill" = [song_c]
  ∧ artist song_c = Some ""
  ∧ spec_query song_c = "C "
  ∧ chill_requests
    = [GetMe;
       PostPlaylist "user1" "Mix" (description_for "Chill") false;
       GetSearch "C";
       PostTracks "pl1" ["spotify:track:C"]]
  ∧ GetSearch (spec_query song_c) ∉ chill_requests.
Proof.
  split_and!; [by vm_compute..|].
  intros Hin. apply list_elem_of_In in Hin. vm_compute in Hin.
  repeat destruct Hin as [Hin|Hin]; try discriminate Hin. done.
Qed.

(** C1 does not hold of the code.  No run of the workflow ends in the
    cancellation message, and a Confirm step that returns is always followed
    by the Publish step, whatever argument the Confirm step is run on: the
    tool answers with a non-empty string, which the workflow tests for
    truthiness.  On the two-song "Happy" store, with a Confirm step run on a
    declined confirmation, all three steps run, the catalog is contacted and
    the playlist is created; the workflow as written, which passes no
    confirmation at all, does the same.  Run without a current agent, the
    workflow throws in its first step. *)
Theorem workflow_publishes_after_declined_confirmation :
  (∀ toLowerCase accessToken catalog confirm_input agent m playlistName w,
     run_outcome w
       (run_with toLowerCase accessToken catalog confirm_input agent m playlistName w))
  ∧ run_with ascii_toLowerCase "token" demo_catalog
      (λ _, Confirmation false [] "Happy") (Some 0) "Happy" "Mix" happy_world
    = (Ok (playlist_created "Mix" "https://open.spotify.com/playlist/pl1"),
       set_steps (λ _, ["recommend songs"; "confirm songs"; "create Spotify playlist"])
         (set_requests
            (λ _, request "token"
                  <$> [GetMe;
                       PostPlaylist "user1" "Mix" (description_for "Happy") false;
                       GetSearch "A X";
                       GetSearch "Unknown";
                       PostTracks "pl1" ["spotify:track:A X"]])
            happy_world))
  ∧ run ascii_toLowerCase "token" demo_catalog (Some 0) "Happy" "Mix" happy_world
    = run_with ascii_toLowerCase "token" demo_catalog
        (λ _, Confirmation false [] "Happy") (Some 0) "Happy" "Mix" happy_world
  ∧ (∀ toLowerCase accessToken catalog m playlistName w,
       run toLowerCase accessToken catalog None m playlistName w
       = (Throw TypeError, set_steps (λ names, names ++ ["recommend songs"]) w)).
Proof.
  split_and!.
  - apply run_with_outcome.
  - by vm_compute.
  - by vm_compute.
  - done.
Qed.

(** C2 does not hold of the code.  On the store that holds no playlist,
    [getSongsByMood] throws a [TypeError] for every mood and every agent: the
    guard that would return the no-songs-found message is commented out, and
    [songs] is read on [undefined].  For a playlist that exists and is
    empty the tool returns the empty string. *)
Theorem getSongsByMood_throws_without_playlist :
  (∀ toLowerCase a m,
     getSongsByMood toLowerCase (Some a) m initial_world
     = (Throw TypeError, bound a initial_world))
  ∧ ((_ ← getOrCreatePlaylist ascii_toLowerCase (Some 0) "Sad";
      getSongsByMood ascii_toLowerCase (Some 0) "Sad") initial_world).1
    = Ok "".
Proof.
  split.
  - intros toLowerCase a m. apply getSongsByMood_absent; [exact wf_initial|].
    unfold stored, find, playlists_of. simpl. by rewrite lookup_empty.
  - by vm_compute.
Qed.
